(** * Bike-fit transfer calculator: stem/spacer solver and setup calculator

    A shallow embedding of [calculateStemRequirements] and
    [calculateBikeSetup] from the bike-fit module, and the properties of
    the two functions.

    Numbers.  Every TypeScript [number] is a real number ([R]); the data
    model of the calculator keeps all numeric fields finite, and the
    properties below are about the geometry and the control flow, not
    about IEEE rounding.  [Math.sin], [Math.cos], [Math.tan] and [Math.PI]
    are the functions and the constant of the real-number library.  Loop
    counters that only take integer values ([spacers], [stemAngle]) are
    carried as [Z] and injected with [IZR] where they enter arithmetic.

    Division.  The solver tests its divisors before it divides.  The
    seatpost block of [calculateBikeSetup] divides the saddle height by
    the sine of the seat-tube angle without a test, so that quotient is a
    [JsNumber]: a real number, or what JavaScript gives for a zero divisor
    ([Infinity], [-Infinity], [NaN]).  The real sine vanishes at the
    non-zero multiples of 180 degrees, where [Math.sin] of the rounded
    argument is a tiny non-zero double and the quotient of the code is
    huge but finite; the statements below that give the value of the
    seatpost extension therefore require the sine not to be 0.

    Optional fields ([field?: number]) are [option R]; the operator [||]
    keeps its JavaScript meaning (an absent value and [0] both fall
    through to the right operand), and a destructuring default [= d] only
    replaces an absent value.

    Template literals are kept as the list of their pieces, so that a note
    records which numbers were interpolated into it.

    The two functions are first given as functions of their arguments.  A
    second rendering keeps the arrays they allocate and push to in a store
    shared by successive calls, and is shown to compute the same values. *)

From Stdlib Require Import Reals Lra Lia ZArith List String.
Import ListNotations.
Open Scope R_scope.

(** ** JavaScript primitives *)

(** [Math.round x]: the integer nearest to [x], halves rounded up, that is
    [floor (x + 0.5)]. *)
Definition Math_round (x : R) : R := IZR (Int_part (x + 1 / 2)).

(** Comparisons as booleans. *)
Definition ltb (x y : R) : bool := if Rlt_dec x y then true else false.
Definition leb (x y : R) : bool := if Rle_dec x y then true else false.
Definition gtb (x y : R) : bool := ltb y x.
Definition geb (x y : R) : bool := leb y x.
Definition neqb (x y : R) : bool := if Req_dec_T x y then false else true.

(** [x || d] for a number [x] that may be absent: [undefined] and [0] are
    falsy. *)
Definition js_or (x : option R) (d : R) : R :=
  match x with
  | Some v => if Req_dec_T v 0 then d else v
  | None => d
  end.

(** Truthiness of a number that may be absent, as tested by [if (x)]. *)
Definition truthy (x : option R) : option R :=
  match x with
  | Some v => if Req_dec_T v 0 then None else Some v
  | None => None
  end.

(** A destructuring default [{ f = d } = options]. *)
Definition with_default (x : option R) (d : R) : R :=
  match x with Some v => v | None => d end.

(** Degrees to radians, [(deg * Math.PI) / 180]. *)
Definition radians (deg : R) : R := (deg * PI) / 180.

(** Pieces of a template literal. *)
Inductive piece : Type :=
| Txt (s : string)        (* literal text *)
| Num (x : R)             (* an interpolated number, [${x}] *)
| Fixed0 (x : R).         (* [${x.toFixed(0)}] *)

Definition message : Type := list piece.

(** The value of an unguarded division: a real number, or one of the
    three values JavaScript has for a zero divisor. *)
Inductive JsNumber : Type :=
| Finite (x : R)
| PosInfinity
| NegInfinity
| NaN.

(** [x / y] for numbers [x] and [y]: [x / 0] is [Infinity] for positive
    [x], [-Infinity] for negative [x] and [NaN] for [0 / 0] (the zero of
    the reals has no sign; it is read as [+0]). *)
Definition js_div (x y : R) : JsNumber :=
  if Req_dec_T y 0 then
    if Rlt_dec 0 x then PosInfinity
    else if Rlt_dec x 0 then NegInfinity
    else NaN
  else Finite (x / y).

(** [x - y] for a number [y]: the infinities and [NaN] absorb it. *)
Definition js_minus (x : JsNumber) (y : R) : JsNumber :=
  match x with
  | Finite a => Finite (a - y)
  | PosInfinity => PosInfinity
  | NegInfinity => NegInfinity
  | NaN => NaN
  end.

(** [Math.round] leaves the infinities and [NaN] as they are. *)
Definition js_round (x : JsNumber) : JsNumber :=
  match x with
  | Finite a => Finite (Math_round a)
  | PosInfinity => PosInfinity
  | NegInfinity => NegInfinity
  | NaN => NaN
  end.

(** [x < y] and [x > y] for a number [y]; every comparison with [NaN] is
    false. *)
Definition js_ltb (x : JsNumber) (y : R) : bool :=
  match x with
  | Finite a => ltb a y
  | NegInfinity => true
  | PosInfinity | NaN => false
  end.

Definition js_gtb (x : JsNumber) (y : R) : bool :=
  match x with
  | Finite a => gtb a y
  | PosInfinity => true
  | NegInfinity | NaN => false
  end.

(** [${x}] in a template literal. *)
Definition interpolate (x : JsNumber) : piece :=
  match x with
  | Finite a => Num a
  | PosInfinity => Txt "Infinity"
  | NegInfinity => Txt "-Infinity"
  | NaN => Txt "NaN"
  end.

(** ** Data model *)

(** [RetulFitData['fitPosition']]: required numbers, as declared. *)
Record FitPosition : Type := {
  saddleHeight : R;
  saddleSetback : R;
  saddleAngle : R;
  handlebarStack : R;
  handlebarReach : R;
  handlebarDrop : R;
  effectiveSeatTubeAngle : R;
  gripReach : option R;
  gripDrop : option R;
  barReach : option R;
  gripWidth : option R;
  gripAngle : option R
}.

Record OriginalBike : Type := {
  make : string;
  model : string;
  size : string;
  year : R;
  type : string
}.

(** [RetulFitData], with the fields the calculator reads. *)
Record RetulFitData : Type := {
  riderName : option string;
  fitDate : option string;
  originalBike : option OriginalBike;
  frameStack : R;
  frameReach : R;
  fitPosition : FitPosition
}.

(** [FrameGeometry].  [headTubeAngle] is declared required, but the solver
    reads it as [newFrame.headTubeAngle || 73] ("Default to 73 if not
    provided"), so the value that arrives at run time may be absent. *)
Record FrameGeometry : Type := {
  stackMm : R;
  reachMm : R;
  headTubeAngle : option R;
  headTubeLengthMm : option R;
  seatTubeAngle : option R;
  seatTubeLengthMm : option R;
  bbDropMm : option R
}.

(** The [options] argument of the solver. *)
Record SolverOptions : Type := {
  maxStemLength : option R;
  minStemLength : option R;
  maxSpacers : option R;
  preferredStemAngle : option R
}.

Definition no_options : SolverOptions :=
  {| maxStemLength := None; minStemLength := None;
     maxSpacers := None; preferredStemAngle := None |}.

(** [StemCalculation]. *)
Record StemCalculation : Type := {
  stemLength : R;
  stemAngle : R;
  spacerStack : R;
  stackDelta : R;
  reachDelta : R;
  isAchievable : bool;
  notes : list message
}.

(** [BikeSetupCalculation]. *)
Module BikeSetupCalculation.
Record t : Type := mk {
  stem : StemCalculation;
  saddleHeight : R;
  seatpostExtension : option JsNumber;
  saddleSetback : R;
  saddleAngle : R;
  effectiveSeatTubeAngle : R;
  seatpostOffsetNeeded : R;
  originalFitBike : option string;
  originalFitDate : option string;
  notes : list message;
  warnings : list message
}.
End BikeSetupCalculation.

(** ** The stem/spacer solver *)

(** The [bestSolution] accumulator. *)
Record Solution : Type := {
  sol_spacers : R;
  sol_stemLength : R;
  sol_stemAngle : R;
  sol_error : R
}.

(** The values of [stemAngle] in
    [for (let stemAngle = -17; stemAngle <= 17; stemAngle += 1)]. *)
Definition stem_angles : list Z :=
  map (fun i => (Z.of_nat i - 17)%Z) (seq 0 35).

Definition commonStemLengths : list R := [70; 80; 90; 100; 110; 120; 130; 140].

Section Solver.

(** The values fixed before the search starts. *)
Variables (hta : R)                       (* headTubeAngle, after [|| 73] *)
          (minLen maxLen maxSp pref : R)  (* the destructured options *)
          (requiredStackGain requiredReachGain : R).

Definition htaRad : R := radians hta.

(** [effectiveAngle] for a stem angle [a] (in degrees). *)
Definition effective_angle (a : R) : R := radians (hta - 90 + a).

Definition spacerStackContrib (spacers : R) : R := spacers * sin htaRad.
Definition spacerReachContrib (spacers : R) : R := spacers * cos htaRad.

(** The averaged stem length of the candidate [(spacers, stemAngle)]. *)
Definition candidate_length (spacers : R) (a : Z) : R :=
  let stemStackNeeded := requiredStackGain - spacerStackContrib spacers in
  let stemReachNeeded := requiredReachGain - spacerReachContrib spacers in
  let effectiveAngle := effective_angle (IZR a) in
  let stemLengthFromReach := stemReachNeeded / cos effectiveAngle in
  let stemLengthFromStack :=
    if gtb (Rabs (sin effectiveAngle)) (1 / 10)
    then stemStackNeeded / sin effectiveAngle
    else stemLengthFromReach in
  (stemLengthFromReach + stemLengthFromStack) / 2.

(** [scoredError] of the candidate with stem length [len]. *)
Definition scored_error (spacers : R) (a : Z) (len : R) : R :=
  let effectiveAngle := effective_angle (IZR a) in
  let actualReachGain := spacerReachContrib spacers + len * cos effectiveAngle in
  let actualStackGain := spacerStackContrib spacers + len * sin effectiveAngle in
  let reachError := Rabs (actualReachGain - requiredReachGain) in
  let stackError := Rabs (actualStackGain - requiredStackGain) in
  let totalError := reachError + stackError in
  let anglePenalty := Rabs (IZR a - pref) * (1 / 2) in
  totalError + anglePenalty.

(** One turn of the inner loop. *)
Definition try_angle (spacers : R) (best : option Solution) (a : Z)
  : option Solution :=
  let effectiveAngle := effective_angle (IZR a) in
  if ltb (Rabs (cos effectiveAngle)) (1 / 10) then best     (* continue *)
  else
    let len := candidate_length spacers a in
    if (geb len minLen && leb len maxLen)%bool then
      let scoredError := scored_error spacers a len in
      let better :=
        match best with
        | None => true
        | Some b => ltb scoredError (sol_error b)
        end in
      if better then
        Some {| sol_spacers := spacers;
                sol_stemLength := Math_round len;
                sol_stemAngle := IZR a;
                sol_error := scoredError |}
      else best
    else best.

(** The inner loop over the stem angles. *)
Definition angle_loop (spacers : R) (best : option Solution) : option Solution :=
  fold_left (try_angle spacers) stem_angles best.

(** The outer loop
    [for (let spacers = 0; spacers <= maxSpacers; spacers += 5)].
    [fuel] bounds the number of times the loop condition is tested. *)
Fixpoint spacer_loop (fuel : nat) (spacers : Z) (best : option Solution)
  : option Solution :=
  match fuel with
  | O => best
  | S fuel' =>
      if leb (IZR spacers) maxSp
      then spacer_loop fuel' (spacers + 5)%Z (angle_loop (IZR spacers) best)
      else best
  end.

(** Tests of the loop condition that are enough for the loop to leave
    through its condition: the first multiple of 5 above [maxSpacers]
    is reached after at most [up (maxSp / 5)] turns. *)
Definition spacer_fuel : nat := S (Z.to_nat (up (maxSp / 5))).

Definition search (fuel : nat) : option Solution := spacer_loop fuel 0%Z None.

(** The candidate [(spacers, a)] passes both tests of the loop body. *)
Definition valid_candidate (spacers : R) (a : Z) : Prop :=
  1 / 10 <= Rabs (cos (effective_angle (IZR a))) /\
  minLen <= candidate_length spacers a <= maxLen.

(** The record the loop body stores for a candidate. *)
Definition candidate_solution (spacers : R) (a : Z) : Solution :=
  {| sol_spacers := spacers;
     sol_stemLength := Math_round (candidate_length spacers a);
     sol_stemAngle := IZR a;
     sol_error := scored_error spacers a (candidate_length spacers a) |}.

(** A grid point: a multiple of 5 between 0 and [maxSpacers], and a whole
    angle between -17 and 17. *)
Definition grid_point (k a : Z) : Prop :=
  (0 <= k)%Z /\ IZR (5 * k) <= maxSp /\ (-17 <= a <= 17)%Z.

End Solver.

(** [commonStemLengths.reduce((prev, curr) => ...)]: the catalog length
    nearest to [len]; the first of two equally near lengths is kept. *)
Definition nearest_common (len : R) : R :=
  fold_left
    (fun prev curr => if ltb (Rabs (curr - len)) (Rabs (prev - len)) then curr else prev)
    (tl commonStemLengths) (hd 0 commonStemLengths).

Definition note_not_achievable : message :=
  [Txt "Exact fit position may not be achievable with standard components"].

Definition note_stack (stackDelta : R) : message :=
  [Txt "Handlebar will be "; Fixed0 (Rabs stackDelta); Txt "mm ";
   Txt (if gtb stackDelta 0 then "higher" else "lower");
   Txt " than original fit"].

Definition note_reach (reachDelta : R) : message :=
  [Txt "Handlebar will be "; Fixed0 (Rabs reachDelta); Txt "mm ";
   Txt (if gtb reachDelta 0 then "further" else "closer");
   Txt " than original fit"].

Definition note_nearest (nearestCommon : R) : message :=
  [Txt "Nearest common stem length: "; Num nearestCommon; Txt "mm"].

(** The head tube angle the solver works with,
    [newFrame.headTubeAngle || 73]. *)
Definition solver_hta (newFrame : FrameGeometry) : R :=
  js_or (headTubeAngle newFrame) 73.

Definition opt_maxStemLength (o : SolverOptions) : R := with_default (maxStemLength o) 140.
Definition opt_minStemLength (o : SolverOptions) : R := with_default (minStemLength o) 60.
Definition opt_maxSpacers (o : SolverOptions) : R := with_default (maxSpacers o) 50.
Definition opt_preferredStemAngle (o : SolverOptions) : R :=
  with_default (preferredStemAngle o) (-6).

(** The search of [calculateStemRequirements] on its arguments. *)
Definition find_best (fuel : nat) (fitPosition : FitPosition)
    (newFrame : FrameGeometry) (options : SolverOptions) : option Solution :=
  search (solver_hta newFrame)
         (opt_minStemLength options) (opt_maxStemLength options)
         (opt_maxSpacers options) (opt_preferredStemAngle options)
         (handlebarStack fitPosition - stackMm newFrame)
         (handlebarReach fitPosition - reachMm newFrame)
         fuel.

(** The [if (!bestSolution)] branch. *)
Definition fallback_solution (fitPosition : FitPosition)
    (newFrame : FrameGeometry) (options : SolverOptions) : StemCalculation :=
  let maxSpacers := opt_maxSpacers options in
  let preferredStemAngle := opt_preferredStemAngle options in
  let targetStack := handlebarStack fitPosition in
  let targetReach := handlebarReach fitPosition in
  let frameStack := stackMm newFrame in
  let frameReach := reachMm newFrame in
  let headTubeAngle := solver_hta newFrame in
  let notes := [note_not_achievable] in
  let defaultStemLength := 100 in
  let defaultStemAngle := preferredStemAngle in
  let effectiveAngle := effective_angle headTubeAngle defaultStemAngle in
  let spacerStackContrib := maxSpacers * sin (htaRad headTubeAngle) in
  let spacerReachContrib := maxSpacers * cos (htaRad headTubeAngle) in
  let stemReachContrib := defaultStemLength * cos effectiveAngle in
  let stemStackContrib := defaultStemLength * sin effectiveAngle in
  let achievableStack := frameStack + spacerStackContrib + stemStackContrib in
  let achievableReach := frameReach + spacerReachContrib + stemReachContrib in
  {| stemLength := defaultStemLength;
     stemAngle := defaultStemAngle;
     spacerStack := maxSpacers;
     stackDelta := achievableStack - targetStack;
     reachDelta := achievableReach - targetReach;
     isAchievable := false;
     notes := notes |}.

(** The deltas of the best solution, before they are rounded. *)
Definition best_stackDelta (fitPosition : FitPosition) (newFrame : FrameGeometry)
    (best : Solution) : R :=
  let headTubeAngle := solver_hta newFrame in
  let effectiveAngle := effective_angle headTubeAngle (sol_stemAngle best) in
  let spacerStackContrib := sol_spacers best * sin (htaRad headTubeAngle) in
  let stemStackContrib := sol_stemLength best * sin effectiveAngle in
  let achievableStack := stackMm newFrame + spacerStackContrib + stemStackContrib in
  achievableStack - handlebarStack fitPosition.

Definition best_reachDelta (fitPosition : FitPosition) (newFrame : FrameGeometry)
    (best : Solution) : R :=
  let headTubeAngle := solver_hta newFrame in
  let effectiveAngle := effective_angle headTubeAngle (sol_stemAngle best) in
  let spacerReachContrib := sol_spacers best * cos (htaRad headTubeAngle) in
  let stemReachContrib := sol_stemLength best * cos effectiveAngle in
  let achievableReach := reachMm newFrame + spacerReachContrib + stemReachContrib in
  achievableReach - handlebarReach fitPosition.

(** The part of [calculateStemRequirements] after the fallback branch. *)
Definition best_solution_result (fitPosition : FitPosition)
    (newFrame : FrameGeometry) (best : Solution) : StemCalculation :=
  let stackDelta := best_stackDelta fitPosition newFrame best in
  let reachDelta := best_reachDelta fitPosition newFrame best in
  let notes := [] in
  let notes :=
    if gtb (Rabs stackDelta) 5 then notes ++ [note_stack stackDelta] else notes in
  let notes :=
    if gtb (Rabs reachDelta) 5 then notes ++ [note_reach reachDelta] else notes in
  let nearestCommon := nearest_common (sol_stemLength best) in
  let notes :=
    if neqb nearestCommon (sol_stemLength best)
    then notes ++ [note_nearest nearestCommon] else notes in
  {| stemLength := sol_stemLength best;
     stemAngle := sol_stemAngle best;
     spacerStack := sol_spacers best;
     stackDelta := Math_round stackDelta;
     reachDelta := Math_round reachDelta;
     isAchievable := (leb (Rabs stackDelta) 10 && leb (Rabs reachDelta) 10)%bool;
     notes := notes |}.

(** [calculateStemRequirements], with the bound on the tests of the outer
    loop's condition made explicit. *)
Definition calculateStemRequirements_fuel (fuel : nat) (fitPosition : FitPosition)
    (newFrame : FrameGeometry) (options : SolverOptions) : StemCalculation :=
  match find_best fuel fitPosition newFrame options with
  | None => fallback_solution fitPosition newFrame options
  | Some best => best_solution_result fitPosition newFrame best
  end.

(** [calculateStemRequirements(fitPosition, newFrame, options)]. *)
Definition calculateStemRequirements (fitPosition : FitPosition)
    (newFrame : FrameGeometry) (options : SolverOptions) : StemCalculation :=
  calculateStemRequirements_fuel (spacer_fuel (opt_maxSpacers options))
    fitPosition newFrame options.

(** ** The setup calculator *)

Definition warning_low (seatpostExtension : JsNumber) : message :=
  [Txt "Low seatpost extension ("; interpolate seatpostExtension;
   Txt "mm) - check minimum insertion depth"].

Definition warning_high (seatpostExtension : JsNumber) : message :=
  [Txt "High seatpost extension ("; interpolate seatpostExtension;
   Txt "mm) - consider a longer seat tube"].

Definition note_offset25 (frameSTA effectiveSTA : R) : message :=
  [Txt "Frame STA ("; Num frameSTA; Txt "°) is steeper than fit (";
   Num effectiveSTA; Txt "°) - use 25mm setback seatpost"].

Definition note_offset20 (frameSTA effectiveSTA : R) : message :=
  [Txt "Frame STA ("; Num frameSTA; Txt "°) is steeper than fit (";
   Num effectiveSTA; Txt "°) - use 20mm setback seatpost"].

Definition note_offset0 (frameSTA effectiveSTA : R) : message :=
  [Txt "Frame STA ("; Num frameSTA; Txt "°) is slacker than fit (";
   Num effectiveSTA;
   Txt "°) - use 0mm offset seatpost, may need forward saddle position"].

Definition note_forward : message :=
  [Txt "Forward saddle position - ensure saddle rails allow this adjustment"].

(** The angle the saddle height is projected along,
    [newFrame.seatTubeAngle || effectiveSTA || 73]. *)
Definition projection_angle (fitData : RetulFitData) (newFrame : FrameGeometry) : R :=
  js_or (seatTubeAngle newFrame)
        (js_or (Some (effectiveSeatTubeAngle (fitPosition fitData))) 73).

(** The seatpost block: the extension and the warnings it pushes. *)
Definition seatpost (fitData : RetulFitData) (newFrame : FrameGeometry)
  : option JsNumber * list message :=
  let saddleHeight := saddleHeight (fitPosition fitData) in
  match truthy (seatTubeLengthMm newFrame) with
  | Some seatTubeLength =>
      let seatTubeAngle := projection_angle fitData newFrame in
      let staRad := radians seatTubeAngle in
      let projectedSaddleHeight := js_div saddleHeight (sin staRad) in
      let seatpostExtension :=
        js_round (js_minus projectedSaddleHeight seatTubeLength) in
      let warnings := [] in
      let warnings :=
        if js_ltb seatpostExtension 50
        then warnings ++ [warning_low seatpostExtension] else warnings in
      let warnings :=
        if js_gtb seatpostExtension 200
        then warnings ++ [warning_high seatpostExtension] else warnings in
      (Some seatpostExtension, warnings)
  | None => (None, [])
  end.

(** [frameSTA], [newFrame.seatTubeAngle || 73]. *)
Definition frame_sta (newFrame : FrameGeometry) : R :=
  js_or (seatTubeAngle newFrame) 73.

(** The seatpost-offset block: the offset and the notes it pushes. *)
Definition seatpost_offset (fitData : RetulFitData) (newFrame : FrameGeometry)
  : R * list message :=
  let saddleHeight := saddleHeight (fitPosition fitData) in
  let effectiveSTA := effectiveSeatTubeAngle (fitPosition fitData) in
  let frameSTA := frame_sta newFrame in
  let staDifference := effectiveSTA - frameSTA in
  if gtb (Rabs staDifference) (1 / 2) then
    let setbackChangePerDegree := saddleHeight * tan ((1 * PI) / 180) in
    let setbackDifference := staDifference * setbackChangePerDegree in
    if gtb setbackDifference 15 then (25, [note_offset25 frameSTA effectiveSTA])
    else if gtb setbackDifference 8 then (20, [note_offset20 frameSTA effectiveSTA])
    else if ltb setbackDifference (-15) then (0, [note_offset0 frameSTA effectiveSTA])
    else (0, [])
  else (0, []).

(** [calculateBikeSetup(fitData, newFrame)]. *)
Definition calculateBikeSetup (fitData : RetulFitData) (newFrame : FrameGeometry)
  : BikeSetupCalculation.t :=
  let stem := calculateStemRequirements (fitPosition fitData) newFrame no_options in
  let stemNotes := notes stem in
  let saddleHeight := saddleHeight (fitPosition fitData) in
  let saddleSetback := saddleSetback (fitPosition fitData) in
  let saddleAngle := js_or (Some (saddleAngle (fitPosition fitData))) 0 in
  let effectiveSTA := effectiveSeatTubeAngle (fitPosition fitData) in
  let '(seatpostExtension, warnings) := seatpost fitData newFrame in
  let '(seatpostOffsetNeeded, notes) := seatpost_offset fitData newFrame in
  let notes :=
    if ltb (Rabs saddleSetback) 50 then notes ++ [note_forward] else notes in
  let originalFitBike :=
    match originalBike fitData with
    | Some b => Some (make b ++ " " ++ model b ++ " " ++ size b)%string
    | None => None
    end in
  BikeSetupCalculation.mk
    stem saddleHeight seatpostExtension saddleSetback saddleAngle
    effectiveSTA seatpostOffsetNeeded originalFitBike (fitDate fitData)
    (stemNotes ++ notes) warnings.

(** ** Predicates and readings used in the statements *)

(** No candidate of the search grid passes the tests of the loop body. *)
Definition no_candidate (fitPosition : FitPosition) (newFrame : FrameGeometry)
    (options : SolverOptions) : Prop :=
  forall k a : Z,
    grid_point (opt_maxSpacers options) k a ->
    ~ valid_candidate (solver_hta newFrame)
        (opt_minStemLength options) (opt_maxStemLength options)
        (handlebarStack fitPosition - stackMm newFrame)
        (handlebarReach fitPosition - reachMm newFrame)
        (IZR (5 * k)) a.

(** Stack and reach deltas recomputed from a triple
    [(spacerStack, stemLength, stemAngle)]: frame value, plus the spacer
    contribution along the steerer, plus the stem contribution along its
    effective angle, minus the target. *)
Definition recomputed_stackDelta (fitPosition : FitPosition)
    (newFrame : FrameGeometry) (spacerStack stemLength stemAngle : R) : R :=
  let hta := solver_hta newFrame in
  (stackMm newFrame + spacerStack * sin (radians hta)
   + stemLength * sin (radians (hta - 90 + stemAngle)))
  - handlebarStack fitPosition.

Definition recomputed_reachDelta (fitPosition : FitPosition)
    (newFrame : FrameGeometry) (spacerStack stemLength stemAngle : R) : R :=
  let hta := solver_hta newFrame in
  (reachMm newFrame + spacerStack * cos (radians hta)
   + stemLength * cos (radians (hta - 90 + stemAngle)))
  - handlebarReach fitPosition.

(** The seatpost offset as the specification words it, with the frame angle
    read as [frame.seatTubeAngle ?? 73] (only an absent angle defaults). *)
Definition specified_seatpost_offset (fitData : RetulFitData)
    (newFrame : FrameGeometry) : R :=
  let staDifference :=
    effectiveSeatTubeAngle (fitPosition fitData)
    - with_default (seatTubeAngle newFrame) 73 in
  let setbackDifference :=
    staDifference * saddleHeight (fitPosition fitData) * tan (radians 1) in
  if gtb (Rabs staDifference) (1 / 2) then
    if gtb setbackDifference 15 then 25
    else if gtb setbackDifference 8 then 20
    else 0
  else 0.

(** The seatpost extension as the specification words it: the saddle
    height projected along the fit's effective seat-tube angle. *)
Definition specified_seatpost_extension (fitData : RetulFitData)
    (seatTubeLength : R) : R :=
  Math_round
    (saddleHeight (fitPosition fitData)
       / sin (radians (effectiveSeatTubeAngle (fitPosition fitData)))
     - seatTubeLength).

(** ** The calculators with their arrays in a store

    The functions above return the notes and the warnings as values.  The
    source builds them in arrays it allocates ([const notes = []]), fills
    with [push], and returns by reference.  Here the arrays live in a
    store, so that calls made one after another share it. *)

Module Store.

Definition addr : Type := nat.

(** The arrays of strings allocated so far, by address. *)
Definition store : Type := list (list message).

Definition M (A : Type) : Type := store -> A * store.

Definition ret {A : Type} (x : A) : M A := fun h => (x, h).

Definition bind {A B : Type} (m : M A) (k : A -> M B) : M B :=
  fun h => let (x, h') := m h in k x h'.

(** [update a f h]: the array at [a] replaced by [f] of it. *)
Fixpoint update (a : addr) (f : list message -> list message) (h : store)
  : store :=
  match h, a with
  | [], _ => []
  | arr :: h', O => f arr :: h'
  | arr :: h', S a' => arr :: update a' f h'
  end.

(** An array literal: a new array at the next free address. *)
Definition new_array (init : list message) : M addr :=
  fun h => (List.length h, h ++ [init]).

(** [array.push(m)]. *)
Definition push (a : addr) (m : message) : M unit :=
  fun h => (tt, update a (fun arr => arr ++ [m]) h).

(** The elements of an array, as read by a spread [...array]. *)
Definition read (a : addr) : M (list message) :=
  fun h => (nth a h [], h).

(** [if (b) { m }]. *)
Definition when (b : bool) (m : M unit) : M unit :=
  if b then m else ret tt.

End Store.

Notation "x <- m ;; k" := (Store.bind m (fun x => k))
  (at level 61, m at next level, right associativity).
Notation "m ;;; k" := (Store.bind m (fun _ => k))
  (at level 61, right associativity).

(** A [StemCalculation] whose [notes] is a reference. *)
Record StemRef : Type := {
  ref_stemLength : R;
  ref_stemAngle : R;
  ref_spacerStack : R;
  ref_stackDelta : R;
  ref_reachDelta : R;
  ref_isAchievable : bool;
  ref_notes : Store.addr
}.

(** A [BikeSetupCalculation] whose arrays are references. *)
Record SetupRef : Type := {
  ref_stem : StemRef;
  ref_saddleHeight : R;
  ref_seatpostExtension : option JsNumber;
  ref_saddleSetback : R;
  ref_saddleAngle : R;
  ref_effectiveSeatTubeAngle : R;
  ref_seatpostOffsetNeeded : R;
  ref_originalFitBike : option string;
  ref_originalFitDate : option string;
  ref_setup_notes : Store.addr;
  ref_warnings : Store.addr
}.

(** [calculateStemRequirements] on the store. *)
Definition calculateStemRequirements_st (fitPosition : FitPosition)
    (newFrame : FrameGeometry) (options : SolverOptions) : Store.M StemRef :=
  notes <- Store.new_array [] ;;
  match find_best (spacer_fuel (opt_maxSpacers options))
          fitPosition newFrame options with
  | None =>
      Store.push notes note_not_achievable ;;;
      let fb := fallback_solution fitPosition newFrame options in
      Store.ret {| ref_stemLength := stemLength fb;
                   ref_stemAngle := stemAngle fb;
                   ref_spacerStack := spacerStack fb;
                   ref_stackDelta := stackDelta fb;
                   ref_reachDelta := reachDelta fb;
                   ref_isAchievable := false;
                   ref_notes := notes |}
  | Some best =>
      let stackDelta := best_stackDelta fitPosition newFrame best in
      let reachDelta := best_reachDelta fitPosition newFrame best in
      Store.when (gtb (Rabs stackDelta) 5)
        (Store.push notes (note_stack stackDelta)) ;;;
      Store.when (gtb (Rabs reachDelta) 5)
        (Store.push notes (note_reach reachDelta)) ;;;
      let nearestCommon := nearest_common (sol_stemLength best) in
      Store.when (neqb nearestCommon (sol_stemLength best))
        (Store.push notes (note_nearest nearestCommon)) ;;;
      Store.ret {| ref_stemLength := sol_stemLength best;
                   ref_stemAngle := sol_stemAngle best;
                   ref_spacerStack := sol_spacers best;
                   ref_stackDelta := Math_round stackDelta;
                   ref_reachDelta := Math_round reachDelta;
                   ref_isAchievable :=
                     (leb (Rabs stackDelta) 10 && leb (Rabs reachDelta) 10)%bool;
                   ref_notes := notes |}
  end.

(** [calculateBikeSetup] on the store. *)
Definition calculateBikeSetup_st (fitData : RetulFitData)
    (newFrame : FrameGeometry) : Store.M SetupRef :=
  notes <- Store.new_array [] ;;
  warnings <- Store.new_array [] ;;
  stem <- calculateStemRequirements_st (fitPosition fitData) newFrame no_options ;;
  let saddleHeight := saddleHeight (fitPosition fitData) in
  let saddleSetback := saddleSetback (fitPosition fitData) in
  let saddleAngle := js_or (Some (saddleAngle (fitPosition fitData))) 0 in
  let effectiveSTA := effectiveSeatTubeAngle (fitPosition fitData) in
  seatpostExtension <-
    match truthy (seatTubeLengthMm newFrame) with
    | Some seatTubeLength =>
        let seatTubeAngle := projection_angle fitData newFrame in
        let staRad := radians seatTubeAngle in
        let projectedSaddleHeight := js_div saddleHeight (sin staRad) in
        let seatpostExtension :=
          js_round (js_minus projectedSaddleHeight seatTubeLength) in
        Store.when (js_ltb seatpostExtension 50)
          (Store.push warnings (warning_low seatpostExtension)) ;;;
        Store.when (js_gtb seatpostExtension 200)
          (Store.push warnings (warning_high seatpostExtension)) ;;;
        Store.ret (Some seatpostExtension)
    | None => Store.ret None
    end ;;
  let frameSTA := frame_sta newFrame in
  let staDifference := effectiveSTA - frameSTA in
  seatpostOffsetNeeded <-
    (if gtb (Rabs staDifference) (1 / 2) then
       let setbackChangePerDegree := saddleHeight * tan ((1 * PI) / 180) in
       let setbackDifference := staDifference * setbackChangePerDegree in
       if gtb setbackDifference 15 then
         Store.push notes (note_offset25 frameSTA effectiveSTA) ;;; Store.ret 25
       else if gtb setbackDifference 8 then
         Store.push notes (note_offset20 frameSTA effectiveSTA) ;;; Store.ret 20
       else if ltb setbackDifference (-15) then
         Store.push notes (note_offset0 frameSTA effectiveSTA) ;;; Store.ret 0
       else Store.ret 0
     else Store.ret 0) ;;
  Store.when (ltb (Rabs saddleSetback) 50) (Store.push notes note_forward) ;;;
  let originalFitBike :=
    match originalBike fitData with
    | Some b => Some (make b ++ " " ++ model b ++ " " ++ size b)%string
    | None => None
    end in
  stemNotes <- Store.read (ref_notes stem) ;;
  ownNotes <- Store.read notes ;;
  merged <- Store.new_array (stemNotes ++ ownNotes) ;;
  Store.ret {| ref_stem := stem;
               ref_saddleHeight := saddleHeight;
               ref_seatpostExtension := seatpostExtension;
               ref_saddleSetback := saddleSetback;
               ref_saddleAngle := saddleAngle;
               ref_effectiveSeatTubeAngle := effectiveSTA;
               ref_seatpostOffsetNeeded := seatpostOffsetNeeded;
               ref_originalFitBike := originalFitBike;
               ref_originalFitDate := fitDate fitData;
               ref_setup_notes := merged;
               ref_warnings := warnings |}.

(** What a caller sees through the references. *)
Definition load_stem (h : Store.store) (r : StemRef) : StemCalculation :=
  {| stemLength := ref_stemLength r;
     stemAngle := ref_stemAngle r;
     spacerStack := ref_spacerStack r;
     stackDelta := ref_stackDelta r;
     reachDelta := ref_reachDelta r;
     isAchievable := ref_isAchievable r;
     notes := nth (ref_notes r) h [] |}.

Definition load_setup (h : Store.store) (r : SetupRef) : BikeSetupCalculation.t :=
  BikeSetupCalculation.mk
    (load_stem h (ref_stem r)) (ref_saddleHeight r) (ref_seatpostExtension r)
    (ref_saddleSetback r) (ref_saddleAngle r) (ref_effectiveSeatTubeAngle r)
    (ref_seatpostOffsetNeeded r) (ref_originalFitBike r) (ref_originalFitDate r)
    (nth (ref_setup_notes r) h []) (nth (ref_warnings r) h []).

(** The references a call on the store returns, given the values and the
    addresses of the arrays. *)
Definition stem_ref_of (r : StemCalculation) (a : Store.addr) : StemRef :=
  {| ref_stemLength := stemLength r;
     ref_stemAngle := stemAngle r;
     ref_spacerStack := spacerStack r;
     ref_stackDelta := stackDelta r;
     ref_reachDelta := reachDelta r;
     ref_isAchievable := isAchievable r;
     ref_notes := a |}.

Definition setup_ref_of (r : BikeSetupCalculation.t)
    (stemNotes merged warnings : Store.addr) : SetupRef :=
  {| ref_stem := stem_ref_of (BikeSetupCalculation.stem r) stemNotes;
     ref_saddleHeight := BikeSetupCalculation.saddleHeight r;
     ref_seatpostExtension := BikeSetupCalculation.seatpostExtension r;
     ref_saddleSetback := BikeSetupCalculation.saddleSetback r;
     ref_saddleAngle := BikeSetupCalculation.saddleAngle r;
     ref_effectiveSeatTubeAngle := BikeSetupCalculation.effectiveSeatTubeAngle r;
     ref_seatpostOffsetNeeded := BikeSetupCalculation.seatpostOffsetNeeded r;
     ref_originalFitBike := BikeSetupCalculation.originalFitBike r;
     ref_originalFitDate := BikeSetupCalculation.originalFitDate r;
     ref_setup_notes := merged;
     ref_warnings := warnings |}.

(** A sequence of calls to the two entry points, and its results. *)
Inductive Call : Type :=
| CallStem (fitPosition : FitPosition) (newFrame : FrameGeometry)
           (options : SolverOptions)
| CallSetup (fitData : RetulFitData) (newFrame : FrameGeometry).

Inductive Outcome : Type :=
| StemOutcome (r : StemCalculation)
| SetupOutcome (r : BikeSetupCalculation.t).

Inductive OutcomeRef : Type :=
| StemOutcomeRef (r : StemRef)
| SetupOutcomeRef (r : SetupRef).

Definition run_call (c : Call) : Outcome :=
  match c with
  | CallStem fitPosition newFrame options =>
      StemOutcome (calculateStemRequirements fitPosition newFrame options)
  | CallSetup fitData newFrame =>
      SetupOutcome (calculateBikeSetup fitData newFrame)
  end.

Definition run_call_st (c : Call) : Store.M OutcomeRef :=
  match c with
  | CallStem fitPosition newFrame options =>
      r <- calculateStemRequirements_st fitPosition newFrame options ;;
      Store.ret (StemOutcomeRef r)
  | CallSetup fitData newFrame =>
      r <- calculateBikeSetup_st fitData newFrame ;;
      Store.ret (SetupOutcomeRef r)
  end.

(** The calls made one after another on the same store. *)
Fixpoint run_calls_st (calls : list Call) : Store.M (list OutcomeRef) :=
  match calls with
  | [] => Store.ret []
  | c :: rest =>
      r <- run_call_st c ;;
      rs <- run_calls_st rest ;;
      Store.ret (r :: rs)
  end.

Definition load_outcome (h : Store.store) (r : OutcomeRef) : Outcome :=
  match r with
  | StemOutcomeRef r => StemOutcome (load_stem h r)
  | SetupOutcomeRef r => SetupOutcome (load_setup h r)
  end.

(** The results of a session as seen once all its calls have returned. *)
Definition observe (calls : list Call) (h0 : Store.store) : list Outcome :=
  let (refs, h) := run_calls_st calls h0 in
  map (load_outcome h) refs.

(** The frame with its head tube angle replaced. *)
Definition set_headTubeAngle (newFrame : FrameGeometry) (hta : option R)
  : FrameGeometry :=
  {| stackMm := stackMm newFrame; reachMm := reachMm newFrame;
     headTubeAngle := hta;
     headTubeLengthMm := headTubeLengthMm newFrame;
     seatTubeAngle := seatTubeAngle newFrame;
     seatTubeLengthMm := seatTubeLengthMm newFrame;
     bbDropMm := bbDropMm newFrame |}.

(** ** Sample inputs *)

Definition sample_position (stack reach : R) : FitPosition :=
  {| saddleHeight := 750; saddleSetback := -60; saddleAngle := -2;
     handlebarStack := stack; handlebarReach := reach; handlebarDrop := -80;
     effectiveSeatTubeAngle := 73;
     gripReach := None; gripDrop := None; barReach := None;
     gripWidth := None; gripAngle := None |}.

Definition sample_frame (hta : option R) : FrameGeometry :=
  {| stackMm := 530; reachMm := 390; headTubeAngle := hta;
     headTubeLengthMm := None; seatTubeAngle := None;
     seatTubeLengthMm := None; bbDropMm := None |}.

(** Target equal to the frame's own stack and reach. *)
Definition zero_gap_position : FitPosition := sample_position 530 390.

(** A target one metre ahead of the frame's reach. *)
Definition far_position : FitPosition := sample_position 530 1390.

(** A target 60.25 mm ahead of the frame, with the stem length pinned to
    60.25 mm and no spacers allowed. *)
Definition pinned_position : FitPosition := sample_position 530 (1801 / 4).

Definition pinned_options : SolverOptions :=
  {| maxStemLength := Some (241 / 4); minStemLength := Some (241 / 4);
     maxSpacers := Some 0; preferredStemAngle := None |}.

Definition sample_fit (saddleHeight saddleSetback effectiveSTA : R) : RetulFitData :=
  {| riderName := None; fitDate := None; originalBike := None;
     frameStack := 530; frameReach := 390;
     fitPosition :=
       {| saddleHeight := saddleHeight; saddleSetback := saddleSetback;
          saddleAngle := -2;
          handlebarStack := 560; handlebarReach := 400; handlebarDrop := -80;
          effectiveSeatTubeAngle := effectiveSTA;
          gripReach := None; gripDrop := None; barReach := None;
          gripWidth := None; gripAngle := None |} |}.

Definition seat_frame (seatTubeAngle seatTubeLengthMm : option R) : FrameGeometry :=
  {| stackMm := 530; reachMm := 390; headTubeAngle := Some 73;
     headTubeLengthMm := None; seatTubeAngle := seatTubeAngle;
     seatTubeLengthMm := seatTubeLengthMm; bbDropMm := None |}.

(** What every outcome of the search on the zero-gap input satisfies. *)
Definition zero_gap_outcome (r : StemCalculation) : Prop :=
  5 <= spacerStack r <= 50 /\
  (exists k : Z, spacerStack r = IZR (5 * k)) /\
  60 <= stemLength r <= 140 /\
  isAchievable r = false.

(** ** The order of the search *)

(** The search visits the grid spacers first, angles second:
    [(k1, a1)] comes before [(k2, a2)]. *)
Definition visited_before (k1 a1 k2 a2 : Z) : Prop :=
  (k1 < k2)%Z \/ (k1 = k2 /\ (a1 < a2)%Z).

Section SearchOrder.

Variables (hta minLen maxLen maxSp pref requiredStackGain requiredReachGain : R).

(** The score the search gives the candidate [(5 k, a)]. *)
Definition grid_error (k a : Z) : R :=
  scored_error hta pref requiredStackGain requiredReachGain (IZR (5 * k)) a
    (candidate_length hta requiredStackGain requiredReachGain (IZR (5 * k)) a).

Definition grid_valid (k a : Z) : Prop :=
  valid_candidate hta minLen maxLen requiredStackGain requiredReachGain
    (IZR (5 * k)) a.

(** [best] is what the search holds once every grid point before [(k, a)]
    has been tried: nothing if none of them is valid, else the valid one
    of lowest score, the first visited among equals. *)
Definition best_upto (k a : Z) (best : option Solution) : Prop :=
  match best with
  | None =>
      forall k' a', (0 <= k')%Z -> (-17 <= a' <= 17)%Z ->
                    visited_before k' a' k a -> ~ grid_valid k' a'
  | Some b =>
      exists kb ab,
        (0 <= kb)%Z /\ IZR (5 * kb) <= maxSp /\ (-17 <= ab <= 17)%Z /\
        visited_before kb ab k a /\ grid_valid kb ab /\
        b = candidate_solution hta pref requiredStackGain requiredReachGain
              (IZR (5 * kb)) ab /\
        forall k' a', (0 <= k')%Z -> (-17 <= a' <= 17)%Z ->
                      visited_before k' a' k a -> grid_valid k' a' ->
                      grid_error kb ab <= grid_error k' a' /\
                      (visited_before k' a' kb ab ->
                       grid_error kb ab < grid_error k' a')
  end.

End SearchOrder.

(** ** The callers: the fit hook and the bike wizard *)

(** [useBikeFit().calculateStem] and [useBikeFit().calculateSetup], as
    functions of the hook's [fitData] state. *)
Definition hook_calculateStem (fitData : option RetulFitData)
    (frameGeometry : FrameGeometry) : option StemCalculation :=
  match fitData with
  | None => None
  | Some fd => Some (calculateStemRequirements (fitPosition fd) frameGeometry no_options)
  end.

Definition hook_calculateSetup (fitData : option RetulFitData)
    (frameGeometry : FrameGeometry) : option BikeSetupCalculation.t :=
  match fitData with
  | None => None
  | Some fd => Some (calculateBikeSetup fd frameGeometry)
  end.

(** The geometry state of the wizard ([state.geometry]), with the fields
    its setup effect reads; each may be null or undefined. *)
Record WizardGeometry : Type := {
  wz_stackMm : option R;
  wz_reachMm : option R;
  wz_headTubeAngle : option R;
  wz_headTubeLengthMm : option R;
  wz_seatTubeAngle : option R;
  wz_seatTubeLengthMm : option R;
  wz_bbDropMm : option R
}.

(** The wizard's effect "recalculate bike setup when fit data or geometry
    changes": the value it stores with [setBikeSetup]. *)
Definition wizard_setup (fitData : option RetulFitData) (geometry : WizardGeometry)
  : option BikeSetupCalculation.t :=
  match fitData, truthy (wz_stackMm geometry), truthy (wz_reachMm geometry),
        truthy (wz_headTubeAngle geometry) with
  | Some _, Some stack, Some reach, Some hta =>
      hook_calculateSetup fitData
        {| stackMm := stack;
           reachMm := reach;
           headTubeAngle := Some hta;
           headTubeLengthMm := wz_headTubeLengthMm geometry;
           seatTubeAngle := wz_seatTubeAngle geometry;
           seatTubeLengthMm := wz_seatTubeLengthMm geometry;
           bbDropMm := wz_bbDropMm geometry |}
  | _, _, _, _ => None
  end.

(** The row the wizard renders for a delta: none when [delta === 0], else
    its colour class, amber when [Math.abs(delta) > 10]. *)
Definition delta_row_class (delta : R) : option string :=
  if neqb delta 0
  then Some (if gtb (Rabs delta) 10 then "text-amber-600" else "text-gray-500")%string
  else None.

(** The "Seatpost Offset" row is rendered when
    [bikeSetup.seatpostOffsetNeeded > 0]. *)
Definition offset_row_shown (bikeSetup : BikeSetupCalculation.t) : bool :=
  gtb (BikeSetupCalculation.seatpostOffsetNeeded bikeSetup) 0.

(** ** The fit diagram's geometry *)

Module Diagram.

(** [BikeGeometryData]. *)
Record BikeGeometryData : Type := {
  stackMm : R;
  reachMm : R;
  seatTubeAngle : R;
  headTubeAngle : R;
  headTubeLengthMm : option R;
  seatTubeLengthMm : option R;
  chainstayLengthMm : option R;
  wheelbaseMm : option R;
  bbDropMm : option R;
  forkRakeMm : option R;
  trailMm : option R
}.

(** The object [validateGeometry] returns. *)
Record Geo : Type := {
  stack : R;
  reach : R;
  seatTubeLength : R;
  headTubeLength : R;
  chainstay : R;
  wheelbase : R;
  bbDrop : R;
  forkRake : R;
  geo_seatTubeAngle : R;
  geo_headTubeAngle : R
}.

Definition WHEEL_RADIUS_MM : R := 340.

(** [x && x < bound] for a number that may be absent. *)
Definition and_lt (x : option R) (bound : R) : bool :=
  match truthy x with Some v => ltb v bound | None => false end.

(** [x * factor] for a number known to be present. *)
Definition times (x : option R) (factor : R) : option R :=
  match x with Some v => Some (v * factor) | None => None end.

(** [if (!x || x < lo || x > hi) x = fallback], read as the final value. *)
Definition in_range_or (x : option R) (lo hi fallback : R) : R :=
  match truthy x with
  | Some v => if (ltb v lo || gtb v hi)%bool then fallback else v
  | None => fallback
  end.

(** [validateGeometry(geometry)]. *)
Definition validateGeometry (geometry : BikeGeometryData) : Geo :=
  let stack := stackMm geometry in
  let reach := reachMm geometry in
  let seatTubeLength := seatTubeLengthMm geometry in
  let seatTubeLength :=
    if and_lt seatTubeLength 100 then times seatTubeLength 10
    else if and_lt seatTubeLength 10 then times seatTubeLength 1000
    else seatTubeLength in
  let seatTubeLength := in_range_or seatTubeLength 350 700 (stack * (92 / 100)) in
  let headTubeLength := headTubeLengthMm geometry in
  let headTubeLength :=
    if and_lt headTubeLength 40 then times headTubeLength 10 else headTubeLength in
  let headTubeLength :=
    in_range_or headTubeLength 80 300 (Rmax 100 (stack * (25 / 100))) in
  let chainstay := chainstayLengthMm geometry in
  let chainstay :=
    if and_lt chainstay 60 then times chainstay 10 else chainstay in
  let chainstay := in_range_or chainstay 350 500 420 in
  let wheelbase := wheelbaseMm geometry in
  let wheelbase :=
    if and_lt wheelbase 150 then times wheelbase 10 else wheelbase in
  let wheelbase := in_range_or wheelbase 900 1200 (chainstay + reach + 600) in
  let bbDrop := in_range_or (bbDropMm geometry) 50 100 70 in
  let forkRake := in_range_or (forkRakeMm geometry) 30 70 47 in
  {| stack := stack;
     reach := reach;
     seatTubeLength := seatTubeLength;
     headTubeLength := headTubeLength;
     chainstay := chainstay;
     wheelbase := wheelbase;
     bbDrop := bbDrop;
     forkRake := forkRake;
     geo_seatTubeAngle := js_or (Some (seatTubeAngle geometry)) 73;
     geo_headTubeAngle := js_or (Some (headTubeAngle geometry)) 73 |}.

Record Point : Type := { x : R; y : R }.

(** The value of the [bikePoints] memo. *)
Record BikePoints : Type := {
  scale : R;
  bb : Point;
  rearWheel : Point;
  frontWheel : Point;
  wheelRadius : R;
  seatTubeTop : Point;
  headTubeTop : Point;
  headTubeBottom : Point;
  staRad : R;
  htaRad : R;
  geo : Geo
}.

(** The extent of the bike the scale is computed from. *)
Definition totalWidth (g : Geo) : R := wheelbase g + WHEEL_RADIUS_MM * 2 + 100.
Definition totalHeight (g : Geo) : R :=
  Rmax (stack g + 200) (WHEEL_RADIUS_MM * 2 + 150).

(** The body of the [bikePoints] memo of [BikeFitDiagram]. *)
Definition bikePoints (geometry : BikeGeometryData) (width height : R)
  : BikePoints :=
  let geo := validateGeometry geometry in
  let totalWidth := wheelbase geo + WHEEL_RADIUS_MM * 2 + 100 in
  let totalHeight := Rmax (stack geo + 200) (WHEEL_RADIUS_MM * 2 + 150) in
  let padding := 50 in
  let availableWidth := width - padding * 2 in
  let availableHeight := height - padding * 2 in
  let scaleX := availableWidth / totalWidth in
  let scaleY := availableHeight / totalHeight in
  let scale := Rmin scaleX scaleY * (9 / 10) in
  let wheelRadius := WHEEL_RADIUS_MM * scale in
  let bbDrop := bbDrop geo * scale in
  let chainstayScaled := chainstay geo * scale in
  let bb := {| x := padding + chainstayScaled + wheelRadius + 20;
               y := height - padding - wheelRadius + bbDrop |} in
  let rearWheelX :=
    x bb - sqrt (Rmax 0 (chainstayScaled * chainstayScaled - bbDrop * bbDrop)) in
  let rearWheel := {| x := rearWheelX; y := y bb - bbDrop |} in
  let staRad := (geo_seatTubeAngle geo * PI) / 180 in
  let seatTubeLength := seatTubeLength geo * scale in
  let seatTubeTop := {| x := x bb - seatTubeLength * cos staRad;
                        y := y bb - seatTubeLength * sin staRad |} in
  let stack := stack geo * scale in
  let reach := reach geo * scale in
  let headTubeTop := {| x := x bb + reach; y := y bb - stack |} in
  let htaRad := (geo_headTubeAngle geo * PI) / 180 in
  let headTubeLength := headTubeLength geo * scale in
  let headTubeBottom := {| x := x headTubeTop + headTubeLength * cos htaRad;
                           y := y headTubeTop + headTubeLength * sin htaRad |} in
  let forkRake := forkRake geo * scale in
  let forkAxleToCrown :=
    match truthy (wheelbaseMm geometry) with
    | Some _ => wheelbase geo * scale - chainstayScaled - reach
    | None => (wheelRadius + bbDrop) * (95 / 100)
    end in
  let frontWheel :=
    {| x := x headTubeBottom
            + (forkAxleToCrown - headTubeLength * (3 / 10)) * cos htaRad
            + forkRake * sin htaRad;
       y := y rearWheel |} in
  {| scale := scale; bb := bb; rearWheel := rearWheel; frontWheel := frontWheel;
     wheelRadius := wheelRadius; seatTubeTop := seatTubeTop;
     headTubeTop := headTubeTop; headTubeBottom := headTubeBottom;
     staRad := staRad; htaRad := htaRad; geo := geo |}.

End Diagram.

(** ** Sample inputs for the callers *)

Definition sample_geometry (hta : option R) : WizardGeometry :=
  {| wz_stackMm := Some 530; wz_reachMm := Some 390; wz_headTubeAngle := hta;
     wz_headTubeLengthMm := None; wz_seatTubeAngle := Some 73;
     wz_seatTubeLengthMm := Some 520; wz_bbDropMm := None |}.

Definition sample_diagram_geometry (seatTubeLengthMm : option R)
  : Diagram.BikeGeometryData :=
  {| Diagram.stackMm := 560; Diagram.reachMm := 390;
     Diagram.seatTubeAngle := 147 / 2; Diagram.headTubeAngle := 73;
     Diagram.headTubeLengthMm := None;
     Diagram.seatTubeLengthMm := seatTubeLengthMm;
     Diagram.chainstayLengthMm := None; Diagram.wheelbaseMm := None;
     Diagram.bbDropMm := None; Diagram.forkRakeMm := None;
     Diagram.trailMm := None |}.

(** The pinned input with the target 20 mm above the frame's stack. *)
Definition raised_position : FitPosition := sample_position 550 (1801 / 4).

Definition inverted_options : SolverOptions :=
  {| maxStemLength := Some 90; minStemLength := Some 110;
     maxSpacers := None; preferredStemAngle := None |}.

Definition negative_spacer_options : SolverOptions :=
  {| maxStemLength := None; minStemLength := None;
     maxSpacers := Some (-5); preferredStemAngle := None |}.

(** * Properties *)

(** ** Comparisons *)

Lemma ltb_true (x y : R) : ltb x y = true <-> x < y.
Proof. unfold ltb. destruct (Rlt_dec x y); split; intros; congruence || lra. Qed.

Lemma ltb_false (x y : R) : ltb x y = false <-> y <= x.
Proof. unfold ltb. destruct (Rlt_dec x y); split; intros; congruence || lra. Qed.

Lemma leb_true (x y : R) : leb x y = true <-> x <= y.
Proof. unfold leb. destruct (Rle_dec x y); split; intros; congruence || lra. Qed.

Lemma leb_false (x y : R) : leb x y = false <-> y < x.
Proof. unfold leb. destruct (Rle_dec x y); split; intros; congruence || lra. Qed.

Lemma gtb_true (x y : R) : gtb x y = true <-> x > y.
Proof. unfold gtb. rewrite ltb_true. lra. Qed.

Lemma gtb_false (x y : R) : gtb x y = false <-> x <= y.
Proof. unfold gtb. rewrite ltb_false. lra. Qed.

Lemma geb_true (x y : R) : geb x y = true <-> x >= y.
Proof. unfold geb. rewrite leb_true. lra. Qed.


Lemma in_range_true (len lo hi : R) :
  (geb len lo && leb len hi)%bool = true <-> lo <= len <= hi.
Proof.
  rewrite Bool.andb_true_iff, geb_true, leb_true. lra.
Qed.

Lemma js_or_nonzero (v d : R) : v <> 0 -> js_or (Some v) d = v.
Proof. intros Hv. unfold js_or. destruct (Req_dec_T v 0); congruence. Qed.

Lemma js_or_zero (d : R) : js_or (Some 0) d = d.
Proof. unfold js_or. destruct (Req_dec_T 0 0); congruence. Qed.

Lemma truthy_nonzero (v : R) : v <> 0 -> truthy (Some v) = Some v.
Proof. intros Hv. unfold truthy. destruct (Req_dec_T v 0); congruence. Qed.

(** An absent number and the number 0 are the two falsy ones. *)
Lemma truthy_falsy (x : option R) : x = None \/ x = Some 0 -> truthy x = None.
Proof.
  intros [-> | ->]; [reflexivity|].
  unfold truthy. destruct (Req_dec_T 0 0); [reflexivity | congruence].
Qed.

Lemma js_div_finite (x y : R) : y <> 0 -> js_div x y = Finite (x / y).
Proof.
  intros Hy. unfold js_div. destruct (Req_dec_T y 0); [contradiction | reflexivity].
Qed.

Lemma js_ltb_true (e : JsNumber) (y : R) :
  js_ltb e y = true <-> e = NegInfinity \/ exists x, e = Finite x /\ x < y.
Proof.
  destruct e as [x| | |]; cbn [js_ltb].
  - rewrite ltb_true. split.
    + intros Hx. right. now exists x.
    + intros [[=] | (x' & [= <-] & Hx)]. exact Hx.
  - split; [discriminate | intros [[=] | (x & [=] & _)]].
  - split; [now left | reflexivity].
  - split; [discriminate | intros [[=] | (x & [=] & _)]].
Qed.

Lemma js_gtb_true (e : JsNumber) (y : R) :
  js_gtb e y = true <-> e = PosInfinity \/ exists x, e = Finite x /\ x > y.
Proof.
  destruct e as [x| | |]; cbn [js_gtb].
  - rewrite gtb_true. split.
    + intros Hx. right. now exists x.
    + intros [[=] | (x' & [= <-] & Hx)]. exact Hx.
  - split; [now left | reflexivity].
  - split; [discriminate | intros [[=] | (x & [=] & _)]].
  - split; [discriminate | intros [[=] | (x & [=] & _)]].
Qed.

(** Nothing is below 50 and above 200. *)
Lemma js_low_high_exclusive (e : JsNumber) :
  js_ltb e 50 = true -> js_gtb e 200 = true -> False.
Proof.
  destruct e as [x| | |]; cbn [js_ltb js_gtb]; try discriminate.
  rewrite ltb_true, gtb_true. lra.
Qed.

(** The sine of an angle strictly between 0 and 180 degrees is positive. *)
Lemma sin_degrees_pos (d : R) : 0 < d < 180 -> 0 < sin (radians d).
Proof.
  intros [H0 H180]. pose proof PI_RGT_0 as Hpi.
  apply sin_gt_0; unfold radians.
  - apply Rdiv_lt_0_compat; [nra | lra].
  - apply Rmult_lt_reg_r with 180; [lra|].
    replace (d * PI / 180 * 180) with (d * PI) by (field; lra). nra.
Qed.

(** ** Rounding *)

Lemma Math_round_bounds (x : R) : x - 1 / 2 < Math_round x <= x + 1 / 2.
Proof.
  unfold Math_round.
  destruct (base_Int_part (x + 1 / 2)) as [Hle Hgt]. lra.
Qed.

Lemma Math_round_error (x : R) : Rabs (Math_round x - x) <= 1 / 2.
Proof.
  pose proof (Math_round_bounds x) as H.
  apply Rabs_le. lra.
Qed.

Lemma Math_round_unique (x : R) (z : Z) :
  x - 1 / 2 < IZR z <= x + 1 / 2 -> Math_round x = IZR z.
Proof.
  intros H. unfold Math_round. f_equal. symmetry.
  apply Int_part_spec. lra.
Qed.

Lemma Math_round_IZR (z : Z) : Math_round (IZR z) = IZR z.
Proof. apply Math_round_unique. lra. Qed.

(** An integer below [x] stays below [Math.round x], and one above stays
    above. *)
Lemma Math_round_ge_int (x : R) (z : Z) : IZR z <= x -> IZR z <= Math_round x.
Proof.
  intros H. unfold Math_round.
  destruct (base_Int_part (x + 1 / 2)) as [_ Hgt].
  apply IZR_le.
  assert (IZR z < IZR (Int_part (x + 1 / 2)) + 1) as Hlt by lra.
  rewrite <- plus_IZR in Hlt. apply lt_IZR in Hlt. lia.
Qed.

Lemma Math_round_le_int (x : R) (z : Z) : x <= IZR z -> Math_round x <= IZR z.
Proof.
  intros H. unfold Math_round.
  destruct (base_Int_part (x + 1 / 2)) as [Hle _].
  apply IZR_le.
  assert (IZR (Int_part (x + 1 / 2)) < IZR z + 1) as Hlt by lra.
  rewrite <- plus_IZR in Hlt. apply lt_IZR in Hlt. lia.
Qed.

(** Two numbers more than 1 apart never round to the same integer. *)
Lemma Math_round_apart (x y : R) : y + 1 < x -> Math_round x <> Math_round y.
Proof.
  intros H E.
  pose proof (Math_round_bounds x). pose proof (Math_round_bounds y). lra.
Qed.

(** ** Angles *)

Lemma PI_gt_3 : 3 < PI.
Proof. pose proof PI2_3_2. lra. Qed.

(** The cosine of an angle of [j] degrees, [0 <= j < 60], lies in (1/2, 1]. *)
Lemma cos_degrees_gt_half (j : R) : 0 <= j < 60 -> 1 / 2 < cos (radians j).
Proof.
  intros [H0 H60]. pose proof PI_RGT_0 as Hpi.
  rewrite <- cos_PI3. unfold radians.
  apply cos_decreasing_1; nra.
Qed.

Lemma cos_degrees_lt_1 (j : R) : 0 < j < 60 -> cos (radians j) < 1.
Proof.
  intros [H0 H60]. pose proof PI_RGT_0 as Hpi.
  rewrite <- cos_0. unfold radians.
  apply cos_decreasing_1; nra.
Qed.



(** [x - x^3/6 <= sin x] on [0, PI]. *)
Lemma sin_lower (x : R) : 0 <= x <= PI -> x - x * x * x / 6 <= sin x.
Proof.
  intros [H0 Hpi].
  destruct (sin_bound x 0 H0 Hpi) as [Hlb _].
  unfold sin_approx, sin_term in Hlb. simpl in Hlb.
  lra.
Qed.

(** ** The search *)

Lemma in_stem_angles (a : Z) : In a stem_angles <-> (-17 <= a <= 17)%Z.
Proof.
  unfold stem_angles. rewrite in_map_iff. split.
  - intros (i & <- & Hi). apply in_seq in Hi. lia.
  - intros Ha. exists (Z.to_nat (a + 17)). split; [lia|].
    apply in_seq. lia.
Qed.

Section SolverFacts.

Variables (hta minLen maxLen maxSp pref requiredStackGain requiredReachGain : R).

#[local] Abbreviation step :=
  (try_angle hta minLen maxLen pref requiredStackGain requiredReachGain).
#[local] Abbreviation outer :=
  (spacer_loop hta minLen maxLen maxSp pref requiredStackGain requiredReachGain).
#[local] Abbreviation valid_candidate :=
  (valid_candidate hta minLen maxLen requiredStackGain requiredReachGain).
#[local] Abbreviation candidate_solution :=
  (candidate_solution hta pref requiredStackGain requiredReachGain).
#[local] Abbreviation grid_point := (grid_point maxSp).

Lemma step_cases (spacers : R) (best : option Solution) (a : Z) :
  step spacers best a = best \/
  (valid_candidate spacers a /\
   step spacers best a = Some (candidate_solution spacers a)).
Proof.
  unfold try_angle.
  destruct (ltb _ _) eqn:Hcos; [now left|].
  destruct (geb _ _ && leb _ _)%bool eqn:Hrange; [|now left].
  destruct (match best with None => true | Some b => _ end); [|now left].
  right. split; [|reflexivity].
  split; [now apply ltb_false in Hcos | now apply in_range_true in Hrange].
Qed.

Lemma step_invalid (spacers : R) (best : option Solution) (a : Z) :
  ~ valid_candidate spacers a -> step spacers best a = best.
Proof.
  intros Hinv. destruct (step_cases spacers best a) as [E | [Hv _]];
    [exact E | contradiction].
Qed.

Lemma step_valid_none (spacers : R) (a : Z) :
  valid_candidate spacers a ->
  step spacers None a = Some (candidate_solution spacers a).
Proof.
  intros [Hcos Hrange]. unfold try_angle.
  apply ltb_false in Hcos. rewrite Hcos.
  apply in_range_true in Hrange. rewrite Hrange. reflexivity.
Qed.

Lemma step_some (spacers : R) (b : Solution) (a : Z) :
  exists b', step spacers (Some b) a = Some b'.
Proof.
  destruct (step_cases spacers (Some b) a) as [E | [_ E]]; rewrite E; eauto.
Qed.

(** The inner loop over any list of angles. *)
Lemma fold_step_invalid (spacers : R) (l : list Z) (best : option Solution) :
  Forall (fun a => ~ valid_candidate spacers a) l ->
  fold_left (step spacers) l best = best.
Proof.
  intros Hall. revert best.
  induction Hall as [|a l Ha _ IH]; intros best; simpl; [reflexivity|].
  rewrite step_invalid by exact Ha. apply IH.
Qed.

Lemma fold_step_some (spacers : R) (l : list Z) (b : Solution) :
  exists b', fold_left (step spacers) l (Some b) = Some b'.
Proof.
  revert b. induction l as [|a l IH]; intros b; simpl; [eauto|].
  destruct (step_some spacers b a) as [b' ->]. apply IH.
Qed.

Lemma fold_step_inv (P : Solution -> Prop) (spacers : R) (l : list Z) :
  (forall a, In a l -> valid_candidate spacers a ->
             P (candidate_solution spacers a)) ->
  forall best,
    (forall b, best = Some b -> P b) ->
    forall b, fold_left (step spacers) l best = Some b -> P b.
Proof.
  induction l as [|a l IH]; intros Hcand best Hbest b; simpl.
  - apply Hbest.
  - apply IH.
    + intros a' Ha'. apply Hcand. now right.
    + intros b' Hb'.
      destruct (step_cases spacers best a) as [E | [Hv E]]; rewrite E in Hb'.
      * now apply Hbest.
      * injection Hb' as <-. apply Hcand; [now left | exact Hv].
Qed.

Lemma fold_step_none (spacers : R) (l : list Z) (best : option Solution) :
  fold_left (step spacers) l best = None ->
  best = None /\ Forall (fun a => ~ valid_candidate spacers a) l.
Proof.
  revert best. induction l as [|a l IH]; intros best; simpl.
  - intros ->. split; [reflexivity | constructor].
  - intros H. apply IH in H as [Hstep Hall].
    destruct best as [b|].
    + destruct (step_some spacers b a) as [b' E]. congruence.
    + split; [reflexivity|]. constructor; [|exact Hall].
      intros Hv. rewrite (step_valid_none _ _ Hv) in Hstep. discriminate.
Qed.

Lemma angle_loop_unfold (spacers : R) (best : option Solution) :
  angle_loop hta minLen maxLen pref requiredStackGain requiredReachGain
    spacers best
  = fold_left (step spacers) stem_angles best.
Proof. unfold angle_loop. reflexivity. Qed.

Lemma outer_S (fuel : nat) (spacers : Z) (best : option Solution) :
  outer (S fuel) spacers best =
  if leb (IZR spacers) maxSp
  then outer fuel (spacers + 5)%Z
         (angle_loop hta minLen maxLen pref requiredStackGain requiredReachGain
            (IZR spacers) best)
  else best.
Proof. reflexivity. Qed.

(** The outer loop.  Its counter stays a multiple of 5. *)
Lemma outer_inv (P : Solution -> Prop) :
  (forall k a, grid_point k a -> valid_candidate (IZR (5 * k)) a ->
               P (candidate_solution (IZR (5 * k)) a)) ->
  forall fuel k best,
    (0 <= k)%Z ->
    (forall b, best = Some b -> P b) ->
    forall b, outer fuel (5 * k)%Z best = Some b -> P b.
Proof.
  intros Hcand. induction fuel as [|fuel IH]; intros k best Hk Hbest b.
  - apply Hbest.
  - rewrite outer_S. destruct (leb _ _) eqn:Hle; [|apply Hbest].
    apply leb_true in Hle.
    replace (5 * k + 5)%Z with (5 * (k + 1))%Z by lia.
    apply IH; [lia|].
    rewrite angle_loop_unfold. apply fold_step_inv; [|exact Hbest].
    intros a Ha Hv. apply Hcand; [|exact Hv].
    apply in_stem_angles in Ha. repeat split; try lia; exact Hle.
Qed.


(** No valid candidate on the grid: the search finds nothing, whatever
    the fuel. *)
Lemma outer_no_candidate :
  (forall k a, grid_point k a -> ~ valid_candidate (IZR (5 * k)) a) ->
  forall fuel k, (0 <= k)%Z -> outer fuel (5 * k)%Z None = None.
Proof.
  intros Hnone. induction fuel as [|fuel IH]; intros k Hk; [reflexivity|].
  rewrite outer_S. destruct (leb _ _) eqn:Hle; [|reflexivity].
  apply leb_true in Hle.
  rewrite angle_loop_unfold, fold_step_invalid.
  - replace (5 * k + 5)%Z with (5 * (k + 1))%Z by lia. apply IH. lia.
  - apply Forall_forall. intros a Ha. apply Hnone.
    apply in_stem_angles in Ha. repeat split; try lia; exact Hle.
Qed.

(** Once the counter has passed [maxSpacers], more fuel changes nothing. *)
Lemma outer_fuel_enough (fuel extra : nat) (k : Z) (best : option Solution) :
  (up (maxSp / 5) < Z.of_nat fuel + k)%Z -> (0 < fuel)%nat ->
  outer (fuel + extra) (5 * k)%Z best = outer fuel (5 * k)%Z best.
Proof.
  revert k best. induction fuel as [|fuel IH]; intros k best Hup Hpos; [lia|].
  change (S fuel + extra)%nat with (S (fuel + extra)).
  rewrite !outer_S. destruct (leb _ _) eqn:Hle; [|reflexivity].
  replace (5 * k + 5)%Z with (5 * (k + 1))%Z by lia.
  destruct fuel as [|fuel].
  - (* the condition just tested true, yet the counter is past the bound *)
    exfalso. apply leb_true in Hle.
    destruct (archimed (maxSp / 5)) as [Hgt _].
    assert (IZR (up (maxSp / 5)) <= IZR k) as Hk by (apply IZR_le; lia).
    rewrite mult_IZR in Hle. lra.
  - apply IH; lia.
Qed.

Lemma search_fuel_enough (n : nat) :
  (spacer_fuel maxSp <= n)%nat ->
  search hta minLen maxLen maxSp pref requiredStackGain requiredReachGain n =
  search hta minLen maxLen maxSp pref requiredStackGain requiredReachGain
         (spacer_fuel maxSp).
Proof.
  intros Hn. unfold search.
  replace n with (spacer_fuel maxSp + (n - spacer_fuel maxSp))%nat by lia.
  change 0%Z with (5 * 0)%Z.
  apply outer_fuel_enough; unfold spacer_fuel; lia.
Qed.

(** With enough fuel the search visits the whole grid: if it finds
    nothing, no grid point from the current counter on is valid. *)
Lemma outer_none (fuel : nat) :
  forall (k : Z) (best : option Solution),
    (0 <= k)%Z -> (up (maxSp / 5) < Z.of_nat fuel + k)%Z ->
    outer fuel (5 * k)%Z best = None ->
    best = None /\
    forall k' a, (k <= k')%Z -> grid_point k' a ->
                 ~ valid_candidate (IZR (5 * k')) a.
Proof.
  destruct (archimed (maxSp / 5)) as [Hup _].
  induction fuel as [|fuel IH]; intros k best Hk Hfuel Hnone.
  - split; [exact Hnone|].
    intros k' a Hk' (_ & Hle & _).
    assert (IZR (up (maxSp / 5)) <= IZR k') as Hge by (apply IZR_le; lia).
    rewrite mult_IZR in Hle. lra.
  - rewrite outer_S in Hnone. destruct (leb _ _) eqn:Hcond.
    + replace (5 * k + 5)%Z with (5 * (k + 1))%Z in Hnone by lia.
      apply IH in Hnone as [Hinner Hrest]; [|lia|lia].
      rewrite angle_loop_unfold in Hinner.
      apply fold_step_none in Hinner as [Hbest Hhere].
      split; [exact Hbest|].
      intros k' a Hk' Hgrid.
      destruct (Z.eq_dec k' k) as [-> | Hne].
      * rewrite Forall_forall in Hhere. apply Hhere.
        destruct Hgrid as (_ & _ & Ha). now apply in_stem_angles.
      * apply Hrest; [lia | exact Hgrid].
    + split; [exact Hnone|].
      apply leb_false in Hcond.
      intros k' a Hk' (_ & Hle & _).
      assert (IZR (5 * k) <= IZR (5 * k')) as Hge by (apply IZR_le; lia).
      lra.
Qed.

End SolverFacts.

(** ** The solver on its arguments *)

Lemma find_best_fuel_enough (n : nat) fitPosition newFrame options :
  (spacer_fuel (opt_maxSpacers options) <= n)%nat ->
  find_best n fitPosition newFrame options =
  find_best (spacer_fuel (opt_maxSpacers options)) fitPosition newFrame options.
Proof. intros Hn. unfold find_best. now apply search_fuel_enough. Qed.

Lemma find_best_no_candidate (n : nat) fitPosition newFrame options :
  no_candidate fitPosition newFrame options ->
  find_best n fitPosition newFrame options = None.
Proof.
  intros Hnone. unfold find_best, search.
  change 0%Z with (5 * 0)%Z.
  apply outer_no_candidate; [exact Hnone | lia].
Qed.

Lemma find_best_none_inv fitPosition newFrame options :
  find_best (spacer_fuel (opt_maxSpacers options)) fitPosition newFrame options
    = None ->
  no_candidate fitPosition newFrame options.
Proof.
  unfold find_best, search. change 0%Z with (5 * 0)%Z at 1.
  intros Hnone k a Hgrid.
  apply outer_none in Hnone as [_ Hall]; [|lia|unfold spacer_fuel; lia].
  destruct Hgrid as (Hk & Hrest). apply Hall; [exact Hk | now split].
Qed.

Lemma find_best_inv (P : Solution -> Prop) (n : nat) fitPosition newFrame options :
  (forall k a,
      grid_point (opt_maxSpacers options) k a ->
      valid_candidate (solver_hta newFrame)
        (opt_minStemLength options) (opt_maxStemLength options)
        (handlebarStack fitPosition - stackMm newFrame)
        (handlebarReach fitPosition - reachMm newFrame) (IZR (5 * k)) a ->
      P (candidate_solution (solver_hta newFrame) (opt_preferredStemAngle options)
           (handlebarStack fitPosition - stackMm newFrame)
           (handlebarReach fitPosition - reachMm newFrame) (IZR (5 * k)) a)) ->
  forall b, find_best n fitPosition newFrame options = Some b -> P b.
Proof.
  intros Hcand b. unfold find_best, search.
  change 0%Z with (5 * 0)%Z.
  apply outer_inv; [exact Hcand | lia | discriminate].
Qed.

Lemma calculateStemRequirements_fuel_enough (n : nat) fitPosition newFrame options :
  (spacer_fuel (opt_maxSpacers options) <= n)%nat ->
  calculateStemRequirements_fuel n fitPosition newFrame options =
  calculateStemRequirements fitPosition newFrame options.
Proof.
  intros Hn. unfold calculateStemRequirements, calculateStemRequirements_fuel.
  now rewrite find_best_fuel_enough.
Qed.

(** C1: when no (spacer, stem-angle) candidate of the search grid yields an
    averaged stem length within [minStemLength, maxStemLength], the solver
    returns (the outer loop leaves through its own condition, so any bound
    on its turns from [spacer_fuel] on gives the same result) the fallback:
    [spacerStack = maxSpacers], [stemLength = 100],
    [stemAngle = preferredStemAngle], [isAchievable = false], both deltas
    equal to achieved minus target for that configuration, and the single
    note that the exact fit position may not be achievable with standard
    components. *)
Theorem fallback_when_no_candidate fitPosition newFrame options :
  no_candidate fitPosition newFrame options ->
  let r := calculateStemRequirements fitPosition newFrame options in
  let hta := js_or (headTubeAngle newFrame) 73 in
  let maxSp := with_default (maxSpacers options) 50 in
  let pref := with_default (preferredStemAngle options) (-6) in
  (forall n, (spacer_fuel maxSp <= n)%nat ->
             calculateStemRequirements_fuel n fitPosition newFrame options = r) /\
  spacerStack r = maxSp /\
  stemLength r = 100 /\
  stemAngle r = pref /\
  isAchievable r = false /\
  stackDelta r =
    (stackMm newFrame + maxSp * sin (radians hta)
     + 100 * sin (radians (hta - 90 + pref))) - handlebarStack fitPosition /\
  reachDelta r =
    (reachMm newFrame + maxSp * cos (radians hta)
     + 100 * cos (radians (hta - 90 + pref))) - handlebarReach fitPosition /\
  notes r =
    [[Txt "Exact fit position may not be achievable with standard components"]].
Proof.
  intros Hnone r hta maxSp pref.
  split.
  - intros n Hn. now apply calculateStemRequirements_fuel_enough.
  - subst r. unfold calculateStemRequirements, calculateStemRequirements_fuel.
    rewrite find_best_no_candidate by exact Hnone.
    repeat split.
Qed.

(** ** A 73 degree head tube *)

Lemma solver_hta_73 : solver_hta (sample_frame (Some 73)) = 73.
Proof. unfold solver_hta. simpl. apply js_or_nonzero. lra. Qed.

Lemma effective_angle_73 (a : R) : effective_angle 73 a = - radians (17 - a).
Proof. unfold effective_angle, radians. lra. Qed.

(** With a 73 degree head tube every stem of the grid points forward and
    level or down: its effective angle lies between -34 and 0 degrees. *)
Lemma stem_cos_73 (a : Z) :
  (-17 <= a <= 17)%Z -> 1 / 2 < cos (effective_angle 73 (IZR a)) <= 1.
Proof.
  intros [Hlo Hhi]. apply IZR_le in Hlo, Hhi.
  rewrite effective_angle_73, cos_neg. split.
  - apply cos_degrees_gt_half. lra.
  - apply COS_bound.
Qed.

Lemma stem_sin_73 (a : Z) :
  (-17 <= a <= 17)%Z -> sin (effective_angle 73 (IZR a)) <= 0.
Proof.
  intros [Hlo Hhi]. apply IZR_le in Hlo, Hhi.
  rewrite effective_angle_73, sin_neg.
  pose proof PI_RGT_0 as Hpi.
  assert (0 <= sin (radians (17 - IZR a))) as Hs
      by (apply sin_ge_0; unfold radians; nra).
  lra.
Qed.

Lemma steerer_cos_73 : 0 <= cos (htaRad 73) <= 1.
Proof.
  pose proof PI_RGT_0 as Hpi. split.
  - apply cos_ge_0; unfold htaRad, radians; lra.
  - apply COS_bound.
Qed.

Lemma steerer_sin_73 : 0 <= sin (htaRad 73) <= 1.
Proof.
  pose proof PI_RGT_0 as Hpi. split.
  - apply sin_ge_0; unfold htaRad, radians; lra.
  - apply SIN_bound.
Qed.

Lemma div_by_fraction (x c : R) : 0 <= x -> 0 < c <= 1 -> x <= x / c.
Proof.
  intros Hx [Hc0 Hc1]. unfold Rdiv.
  assert (1 <= / c) as Hinv.
  { rewrite <- Rinv_1. apply Rinv_le_contravar; lra. }
  nra.
Qed.

Lemma div_nonpos_neg (x y : R) : x <= 0 -> y < 0 -> 0 <= x / y.
Proof.
  intros Hx Hy. unfold Rdiv.
  assert (/ y < 0) as Hinv by now apply Rinv_lt_0_compat.
  nra.
Qed.

(** A target one metre ahead of the frame is out of reach of every
    candidate: each averaged stem length exceeds 140 mm. *)
Lemma far_position_no_candidate :
  no_candidate far_position (sample_frame (Some 73)) no_options.
Proof.
  intros k a (Hk & Hsp & Ha) [_ [_ Hmax]].
  rewrite solver_hta_73 in Hmax.
  cbn [opt_maxStemLength opt_maxSpacers no_options with_default
       maxStemLength maxSpacers] in Hmax, Hsp.
  cbn [far_position sample_position sample_frame handlebarStack handlebarReach
       stackMm reachMm] in Hmax.
  pose proof (stem_cos_73 a Ha) as Hc.
  pose proof (stem_sin_73 a Ha) as Hs.
  pose proof steerer_cos_73 as Hhc.
  pose proof steerer_sin_73 as Hhs.
  assert (0 <= IZR (5 * k)) as Hk0 by (apply IZR_le; lia).
  unfold candidate_length, spacerStackContrib, spacerReachContrib in Hmax.
  set (s := IZR (5 * k)) in *.
  set (c := cos (effective_angle 73 (IZR a))) in *.
  set (sn := sin (effective_angle 73 (IZR a))) in *.
  set (hc := cos (htaRad 73)) in *.
  set (hs := sin (htaRad 73)) in *.
  assert (950 <= 1390 - 390 - s * hc) as Hneed by nra.
  assert (950 <= (1390 - 390 - s * hc) / c) as Hreach.
  { apply Rle_trans with (1390 - 390 - s * hc); [exact Hneed|].
    apply div_by_fraction; lra. }
  destruct (gtb (Rabs sn) (1 / 10)) eqn:Hsteep.
  - apply gtb_true in Hsteep.
    assert (sn < 0) as Hneg.
    { destruct (Rle_lt_or_eq_dec _ _ Hs) as [Hlt | Heq]; [exact Hlt|].
      rewrite Heq, Rabs_R0 in Hsteep. lra. }
    assert (0 <= (530 - 530 - s * hs) / sn) as Hstack.
    { apply div_nonpos_neg; [nra | exact Hneg]. }
    lra.
  - lra.
Qed.

(** A concrete input on the fallback path. *)
Lemma fallback_when_no_candidate_witness :
  let r := calculateStemRequirements far_position (sample_frame (Some 73)) no_options in
  spacerStack r = 50 /\ stemLength r = 100 /\ stemAngle r = -6 /\
  isAchievable r = false.
Proof.
  pose proof (fallback_when_no_candidate far_position (sample_frame (Some 73))
                no_options far_position_no_candidate) as H.
  cbv zeta in H. destruct H as (_ & Hsp & Hlen & Hang & Hach & _).
  cbv zeta. repeat split; assumption.
Defined.

(** ** The zero-gap input *)

(** With no gap to close, the candidates without spacers all have an
    averaged stem length of 0. *)
Lemma zero_gap_length_no_spacers (a : Z) :
  candidate_length 73 (530 - 530) (390 - 390) 0 a = 0.
Proof.
  unfold candidate_length, spacerStackContrib, spacerReachContrib.
  destruct (gtb _ _); unfold Rdiv; lra.
Qed.

(** Every candidate the search can keep on the zero-gap input needs
    spacers and leaves the bar at least 30 mm ahead of the target. *)
Lemma zero_gap_candidate (k a : Z) :
  grid_point 50 k a ->
  valid_candidate 73 60 140 (530 - 530) (390 - 390) (IZR (5 * k)) a ->
  zero_gap_outcome
    (best_solution_result zero_gap_position (sample_frame (Some 73))
       (candidate_solution 73 (-6) (530 - 530) (390 - 390) (IZR (5 * k)) a)).
Proof.
  intros (Hk & Hsp & Ha) [_ Hrange].
  assert (1 <= k)%Z as Hk1.
  { destruct (Z.eq_dec k 0) as [-> |]; [|lia].
    change (IZR (5 * 0)) with 0 in Hrange.
    rewrite zero_gap_length_no_spacers in Hrange. lra. }
  assert (5 <= IZR (5 * k)) as Hs5 by (apply IZR_le; lia).
  set (s := IZR (5 * k)) in *.
  set (len := candidate_length 73 (530 - 530) (390 - 390) s a) in *.
  assert (60 <= Math_round len <= 140) as Hround.
  { split; [apply (Math_round_ge_int len 60) | apply (Math_round_le_int len 140)];
      lra. }
  unfold zero_gap_outcome, best_solution_result.
  cbn [spacerStack stemLength isAchievable candidate_solution
       sol_spacers sol_stemLength sol_stemAngle].
  fold len.
  repeat split; try lra; try (now exists k).
  apply Bool.andb_false_iff. right. apply leb_false.
  unfold best_reachDelta.
  cbn [candidate_solution sol_spacers sol_stemLength sol_stemAngle zero_gap_position
       sample_position sample_frame handlebarReach reachMm].
  rewrite solver_hta_73.
  pose proof (stem_cos_73 a Ha) as Hc.
  pose proof steerer_cos_73 as Hhc.
  fold len.
  set (c := cos (effective_angle 73 (IZR a))) in *.
  set (hc := cos (htaRad 73)) in *.
  assert (30 < 390 + s * hc + Math_round len * c - 390) as Hdelta by nra.
  rewrite Rabs_right; lra.
Qed.

Lemma zero_gap_find_best_inv (P : Solution -> Prop) (n : nat) :
  (forall k a,
      grid_point 50 k a ->
      valid_candidate 73 60 140 (530 - 530) (390 - 390) (IZR (5 * k)) a ->
      P (candidate_solution 73 (-6) (530 - 530) (390 - 390) (IZR (5 * k)) a)) ->
  forall b,
    find_best n zero_gap_position (sample_frame (Some 73)) no_options = Some b ->
    P b.
Proof.
  intros Hcand. apply find_best_inv. rewrite solver_hta_73. exact Hcand.
Qed.



(** ** The pinned input: one candidate only *)

Lemma effective_angle_73_17 : effective_angle 73 17 = 0.
Proof. unfold effective_angle, radians. lra. Qed.

Lemma inv_cos_stem_73 (a : Z) :
  (-17 <= a <= 16)%Z -> 1 < / cos (effective_angle 73 (IZR a)) < 2.
Proof.
  intros [Hlo Hhi].
  destruct (stem_cos_73 a ltac:(lia)) as [Hhalf _].
  assert (cos (effective_angle 73 (IZR a)) < 1) as Hlt1.
  { apply IZR_le in Hlo, Hhi.
    rewrite effective_angle_73, cos_neg. apply cos_degrees_lt_1. lra. }
  set (c := cos (effective_angle 73 (IZR a))) in *.
  split.
  - rewrite <- Rinv_1. apply Rinv_lt_contravar; lra.
  - replace 2 with (/ (1 / 2)) by lra. apply Rinv_lt_contravar; lra.
Qed.

(** Every stem angle but the last misses the pinned length: the averaged
    length is either half the reach over the cosine (too short) or the
    reach over the cosine (too long). *)
Lemma pinned_invalid (a : Z) :
  (-17 <= a <= 16)%Z ->
  ~ valid_candidate 73 (241 / 4) (241 / 4) (530 - 530) (1801 / 4 - 390) 0 a.
Proof.
  intros Ha [_ Hrange].
  pose proof (inv_cos_stem_73 a Ha) as Hinv.
  unfold candidate_length, spacerStackContrib, spacerReachContrib in Hrange.
  set (ic := / cos (effective_angle 73 (IZR a))) in *.
  destruct (gtb _ _); unfold Rdiv in Hrange; fold ic in Hrange; nra.
Qed.

Lemma pinned_length :
  candidate_length 73 (530 - 530) (1801 / 4 - 390) 0 17 = 241 / 4.
Proof.
  unfold candidate_length, spacerStackContrib, spacerReachContrib.
  rewrite effective_angle_73_17, cos_0, sin_0, Rabs_R0.
  replace (gtb 0 (1 / 10)) with false
    by (symmetry; apply gtb_false; lra).
  lra.
Qed.

Lemma pinned_valid :
  valid_candidate 73 (241 / 4) (241 / 4) (530 - 530) (1801 / 4 - 390) 0 17.
Proof.
  split.
  - rewrite effective_angle_73_17, cos_0, Rabs_R1. lra.
  - rewrite pinned_length. lra.
Qed.

Lemma up_0_5 : up (0 / 5) = 1%Z.
Proof. symmetry. apply tech_up; lra. Qed.

Lemma stem_angles_last :
  stem_angles = map (fun i => (Z.of_nat i - 17)%Z) (seq 0 34) ++ [17%Z].
Proof. reflexivity. Qed.

(** The search on the pinned input stops at 0 mm of spacers and keeps the
    17 degree stem. *)
Lemma pinned_best :
  find_best (spacer_fuel (opt_maxSpacers pinned_options))
    pinned_position (sample_frame (Some 73)) pinned_options =
  Some (candidate_solution 73 (-6) (530 - 530) (1801 / 4 - 390) 0 17).
Proof.
  unfold find_best, search. rewrite solver_hta_73.
  cbn [opt_maxStemLength opt_minStemLength opt_maxSpacers opt_preferredStemAngle
       pinned_options with_default maxStemLength minStemLength maxSpacers
       preferredStemAngle pinned_position sample_position sample_frame
       handlebarStack handlebarReach stackMm reachMm].
  unfold spacer_fuel. rewrite up_0_5.
  change (S (Z.to_nat 1)) with 2%nat.
  rewrite !outer_S.
  replace (leb 0 0) with true by (symmetry; apply leb_true; lra).
  replace (leb (IZR (0 + 5)) 0) with false
    by (symmetry; apply leb_false; simpl; lra).
  rewrite angle_loop_unfold, stem_angles_last, fold_left_app.
  rewrite fold_step_invalid with (l := map _ (seq 0 34)).
  - simpl. apply step_valid_none. exact pinned_valid.
  - apply Forall_forall. intros a Ha. apply pinned_invalid.
    apply in_map_iff in Ha as (i & <- & Hi). apply in_seq in Hi. lia.
Qed.

Lemma Math_round_pinned : Math_round (241 / 4) = 60.
Proof. apply Math_round_unique. lra. Qed.

Lemma Math_round_quarter_below : Math_round (- (1 / 4)) = 0.
Proof. apply Math_round_unique. lra. Qed.

(** The result on the pinned input, field by field. *)
Lemma pinned_result :
  let r := calculateStemRequirements pinned_position (sample_frame (Some 73))
             pinned_options in
  spacerStack r = 0 /\ stemLength r = 60 /\ stemAngle r = 17 /\
  stackDelta r = 0 /\ reachDelta r = 0 /\ isAchievable r = true.
Proof.
  cbv zeta. unfold calculateStemRequirements, calculateStemRequirements_fuel.
  rewrite pinned_best.
  unfold best_solution_result, best_stackDelta, best_reachDelta.
  cbn [spacerStack stemLength stemAngle stackDelta reachDelta isAchievable
       candidate_solution sol_spacers sol_stemLength sol_stemAngle
       pinned_position sample_position sample_frame handlebarStack
       handlebarReach stackMm reachMm].
  rewrite solver_hta_73, pinned_length, Math_round_pinned,
    effective_angle_73_17, cos_0, sin_0.
  replace (530 + 0 * sin (htaRad 73) + 60 * 0 - 530) with 0 by lra.
  replace (390 + 0 * cos (htaRad 73) + 60 * 1 - 1801 / 4) with (- (1 / 4)) by lra.
  rewrite Math_round_quarter_below, (Math_round_IZR 0), Rabs_R0.
  repeat split.
  apply Bool.andb_true_iff. split; apply leb_true; [lra|].
  rewrite Rabs_Ropp, Rabs_right; lra.
Qed.

(** The only note on the pinned input names the nearest catalog length. *)
Lemma pinned_notes :
  notes (calculateStemRequirements pinned_position (sample_frame (Some 73))
           pinned_options)
  = [[Txt "Nearest common stem length: "; Num 70; Txt "mm"]].
Proof.
  unfold calculateStemRequirements, calculateStemRequirements_fuel.
  rewrite pinned_best.
  unfold best_solution_result, best_stackDelta, best_reachDelta.
  cbn [notes candidate_solution sol_spacers sol_stemLength sol_stemAngle
       pinned_position sample_position sample_frame handlebarStack
       handlebarReach stackMm reachMm].
  rewrite solver_hta_73, pinned_length, Math_round_pinned,
    effective_angle_73_17, cos_0, sin_0.
  replace (530 + 0 * sin (htaRad 73) + 60 * 0 - 530) with 0 by lra.
  replace (390 + 0 * cos (htaRad 73) + 60 * 1 - 1801 / 4) with (- (1 / 4)) by lra.
  replace (gtb (Rabs 0) 5) with false
    by (symmetry; apply gtb_false; rewrite Rabs_R0; lra).
  replace (gtb (Rabs (- (1 / 4))) 5) with false
    by (symmetry; apply gtb_false; rewrite Rabs_Ropp, Rabs_right; lra).
  assert (nearest_common 60 = 70) as ->.
  { unfold nearest_common, commonStemLengths. cbn [fold_left tl hd].
    assert (forall curr, 80 <= curr ->
              (if ltb (Rabs (curr - 60)) (Rabs (70 - 60)) then curr else 70) = 70)
      as Hkeep.
    { intros curr Hcurr.
      replace (ltb (Rabs (curr - 60)) (Rabs (70 - 60))) with false; [reflexivity|].
      symmetry. apply ltb_false. rewrite !Rabs_right; lra. }
    rewrite (Hkeep 80), (Hkeep 90), (Hkeep 100), (Hkeep 110), (Hkeep 120),
      (Hkeep 130), (Hkeep 140) by lra.
    reflexivity. }
  replace (neqb 70 60) with true
    by (unfold neqb; destruct (Req_dec_T 70 60); [lra | reflexivity]).
  reflexivity.
Qed.

(** ** The best solution comes from the grid *)

Lemma best_from_grid (n : nat) fitPosition newFrame options (b : Solution) :
  find_best n fitPosition newFrame options = Some b ->
  exists k a,
    grid_point (opt_maxSpacers options) k a /\
    valid_candidate (solver_hta newFrame)
      (opt_minStemLength options) (opt_maxStemLength options)
      (handlebarStack fitPosition - stackMm newFrame)
      (handlebarReach fitPosition - reachMm newFrame) (IZR (5 * k)) a /\
    b = candidate_solution (solver_hta newFrame) (opt_preferredStemAngle options)
          (handlebarStack fitPosition - stackMm newFrame)
          (handlebarReach fitPosition - reachMm newFrame) (IZR (5 * k)) a.
Proof.
  revert b. apply find_best_inv. intros k a Hgrid Hvalid.
  exists k, a. auto.
Qed.

Lemma not_fallback_has_best fitPosition newFrame options :
  ~ no_candidate fitPosition newFrame options ->
  exists b,
    find_best (spacer_fuel (opt_maxSpacers options)) fitPosition newFrame options
    = Some b.
Proof.
  intros Hsome.
  destruct (find_best _ _ _ _) as [b|] eqn:Hbest; [now exists b|].
  exfalso. apply Hsome. now apply find_best_none_inv.
Qed.

Lemma recomputed_stackDelta_best fitPosition newFrame (b : Solution) :
  recomputed_stackDelta fitPosition newFrame
    (sol_spacers b) (sol_stemLength b) (sol_stemAngle b)
  = best_stackDelta fitPosition newFrame b.
Proof. reflexivity. Qed.

Lemma recomputed_reachDelta_best fitPosition newFrame (b : Solution) :
  recomputed_reachDelta fitPosition newFrame
    (sol_spacers b) (sol_stemLength b) (sol_stemAngle b)
  = best_reachDelta fitPosition newFrame b.
Proof. reflexivity. Qed.

(** C5 (as the code behaves): on the non-fallback path the returned
    [stackDelta] and [reachDelta] are the deltas recomputed from the
    returned triple [(spacerStack, stemLength, stemAngle)], rounded to the
    nearest integer; they agree with the recomputation to within 0.5 mm. *)
Theorem deltas_round_recomputation fitPosition newFrame options :
  ~ no_candidate fitPosition newFrame options ->
  let r := calculateStemRequirements fitPosition newFrame options in
  let stack' :=
    recomputed_stackDelta fitPosition newFrame
      (spacerStack r) (stemLength r) (stemAngle r) in
  let reach' :=
    recomputed_reachDelta fitPosition newFrame
      (spacerStack r) (stemLength r) (stemAngle r) in
  stackDelta r = Math_round stack' /\
  reachDelta r = Math_round reach' /\
  Rabs (stackDelta r - stack') <= 1 / 2 /\
  Rabs (reachDelta r - reach') <= 1 / 2.
Proof.
  intros Hsome.
  destruct (not_fallback_has_best _ _ _ Hsome) as [b Hbest].
  unfold calculateStemRequirements, calculateStemRequirements_fuel.
  rewrite Hbest. cbv zeta.
  cbn [best_solution_result spacerStack stemLength stemAngle stackDelta reachDelta].
  rewrite recomputed_stackDelta_best, recomputed_reachDelta_best.
  repeat split; try reflexivity; apply Math_round_error.
Qed.

(** The pinned input is on the non-fallback path. *)
Lemma pinned_has_candidate :
  ~ no_candidate pinned_position (sample_frame (Some 73)) pinned_options.
Proof.
  intros Hnone.
  apply (Hnone 0%Z 17%Z).
  - split; [lia|]. split; [|lia].
    change (IZR (5 * 0)) with 0. cbn. lra.
  - rewrite solver_hta_73. exact pinned_valid.
Qed.

Lemma deltas_round_recomputation_witness :
  let r := calculateStemRequirements pinned_position (sample_frame (Some 73))
             pinned_options in
  Rabs (reachDelta r
        - recomputed_reachDelta pinned_position (sample_frame (Some 73))
            (spacerStack r) (stemLength r) (stemAngle r)) <= 1 / 2.
Proof.
  pose proof (deltas_round_recomputation pinned_position (sample_frame (Some 73))
                pinned_options pinned_has_candidate) as H.
  cbv zeta in H. destruct H as (_ & _ & _ & Hreach).
  cbv zeta. exact Hreach.
Defined.

(** C5, the claim as stated, fails: on the pinned input (non-fallback
    path) the returned [reachDelta] is 0 while the recomputation from the
    returned triple gives -0.25, further apart than 1e-6. *)
Lemma pinned_reachDelta_not_recomputed :
  let r := calculateStemRequirements pinned_position (sample_frame (Some 73))
             pinned_options in
  ~ no_candidate pinned_position (sample_frame (Some 73)) pinned_options /\
  reachDelta r = 0 /\
  recomputed_reachDelta pinned_position (sample_frame (Some 73))
    (spacerStack r) (stemLength r) (stemAngle r) = - (1 / 4) /\
  ~ Rabs (reachDelta r
          - recomputed_reachDelta pinned_position (sample_frame (Some 73))
              (spacerStack r) (stemLength r) (stemAngle r)) <= 1 / 1000000.
Proof.
  cbv zeta.
  destruct pinned_result as (Hsp & Hlen & Hang & _ & Hreach & _).
  rewrite Hsp, Hlen, Hang, Hreach.
  assert (recomputed_reachDelta pinned_position (sample_frame (Some 73)) 0 60 17
          = - (1 / 4)) as Hre.
  { unfold recomputed_reachDelta. rewrite solver_hta_73.
    fold (effective_angle 73 17). rewrite effective_angle_73_17, cos_0.
    cbn [pinned_position sample_position sample_frame handlebarReach reachMm].
    lra. }
  rewrite Hre.
  split; [exact pinned_has_candidate|].
  split; [reflexivity|]. split; [reflexivity|].
  replace (0 - - (1 / 4)) with (1 / 4) by lra.
  rewrite Rabs_right; lra.
Qed.

(** C6 (as the code behaves): whenever [isAchievable] is true, the spacer
    stack is a multiple of 5 within [0, maxSpacers], and the stem length is
    the nearest integer to a length within
    [minStemLength, maxStemLength]; it lies within those bounds whenever
    both are whole numbers. *)
Theorem achievable_within_bounds fitPosition newFrame options :
  let r := calculateStemRequirements fitPosition newFrame options in
  let minLen := with_default (minStemLength options) 60 in
  let maxLen := with_default (maxStemLength options) 140 in
  let maxSp := with_default (maxSpacers options) 50 in
  isAchievable r = true ->
  (exists k : Z, spacerStack r = IZR (5 * k)) /\
  0 <= spacerStack r <= maxSp /\
  (exists len, minLen <= len <= maxLen /\ stemLength r = Math_round len) /\
  (forall zmin zmax : Z, minLen = IZR zmin -> maxLen = IZR zmax ->
                         minLen <= stemLength r <= maxLen).
Proof.
  cbv zeta. unfold calculateStemRequirements, calculateStemRequirements_fuel.
  destruct (find_best _ _ _ _) as [b|] eqn:Hbest; [|discriminate].
  intros _.
  apply best_from_grid in Hbest as (k & a & (Hk & Hsp & _) & (_ & Hrange) & ->).
  cbn [best_solution_result spacerStack stemLength candidate_solution
       sol_spacers sol_stemLength].
  split; [now exists k|].
  split; [split; [apply IZR_le; lia | exact Hsp]|].
  split; [eexists; split; [exact Hrange | reflexivity]|].
  intros zmin zmax Emin Emax.
  unfold opt_minStemLength, opt_maxStemLength in Hrange.
  rewrite Emin, Emax in *.
  split; [apply Math_round_ge_int | apply Math_round_le_int]; lra.
Qed.

Lemma achievable_within_bounds_witness :
  let r := calculateStemRequirements pinned_position (sample_frame (Some 73))
             pinned_options in
  0 <= spacerStack r <= 0 /\
  exists len, 241 / 4 <= len <= 241 / 4 /\ stemLength r = Math_round len.
Proof.
  pose proof (achievable_within_bounds pinned_position (sample_frame (Some 73))
                pinned_options) as H.
  cbv zeta in H.
  destruct pinned_result as (_ & _ & _ & _ & _ & Hach).
  destruct (H Hach) as (_ & Hsp & Hlen & _).
  cbv zeta. split; [exact Hsp | exact Hlen].
Defined.

(** C6, the claim as stated, fails: on the pinned input the solution is
    achievable, yet its stem length 60 is below [minStemLength = 60.25]. *)
Lemma pinned_stem_below_minimum :
  let r := calculateStemRequirements pinned_position (sample_frame (Some 73))
             pinned_options in
  isAchievable r = true /\
  stemLength r = 60 /\
  ~ (with_default (minStemLength pinned_options) 60 <= stemLength r
     <= with_default (maxStemLength pinned_options) 140).
Proof.
  cbv zeta.
  destruct pinned_result as (_ & Hlen & _ & _ & _ & Hach).
  rewrite Hlen. repeat split; [exact Hach|].
  simpl. lra.
Qed.

(** ** The head tube angle default *)

Lemma solver_depends_on_hta fitPosition (f1 f2 : FrameGeometry) options :
  solver_hta f1 = solver_hta f2 ->
  stackMm f1 = stackMm f2 ->
  reachMm f1 = reachMm f2 ->
  (forall n, find_best n fitPosition f1 options = find_best n fitPosition f2 options) /\
  fallback_solution fitPosition f1 options = fallback_solution fitPosition f2 options /\
  (forall b, best_solution_result fitPosition f1 b
             = best_solution_result fitPosition f2 b).
Proof.
  intros Hhta Hstack Hreach.
  unfold find_best, fallback_solution, best_solution_result,
    best_stackDelta, best_reachDelta.
  rewrite Hhta, Hstack, Hreach. repeat split.
Qed.

(** C9: a frame whose [headTubeAngle] is 0, or missing at run time, is
    solved exactly as the same frame with a 73 degree head tube: the angle
    the solver works with is 73, and the candidate search, the fallback
    and the whole result coincide. *)
Theorem head_tube_angle_defaults_to_73 fitPosition newFrame options :
  headTubeAngle newFrame = Some 0 \/ headTubeAngle newFrame = None ->
  let frame73 := set_headTubeAngle newFrame (Some 73) in
  solver_hta newFrame = 73 /\
  (forall n, find_best n fitPosition newFrame options
             = find_best n fitPosition frame73 options) /\
  fallback_solution fitPosition newFrame options
  = fallback_solution fitPosition frame73 options /\
  calculateStemRequirements fitPosition newFrame options
  = calculateStemRequirements fitPosition frame73 options.
Proof.
  intros Hhta frame73.
  assert (solver_hta newFrame = 73) as H73.
  { unfold solver_hta. destruct Hhta as [-> | ->];
      [apply js_or_zero | reflexivity]. }
  assert (solver_hta frame73 = 73) as H73'.
  { unfold solver_hta, frame73. simpl. apply js_or_nonzero. lra. }
  destruct (solver_depends_on_hta fitPosition newFrame frame73 options)
    as (Hfind & Hfall & Hbest); [congruence | reflexivity | reflexivity |].
  split; [exact H73|]. split; [exact Hfind|]. split; [exact Hfall|].
  unfold calculateStemRequirements, calculateStemRequirements_fuel.
  rewrite Hfind, Hfall. destruct (find_best _ _ _ _); [apply Hbest | reflexivity].
Qed.

Lemma head_tube_angle_defaults_to_73_witness :
  calculateStemRequirements zero_gap_position (sample_frame (Some 0)) no_options
  = calculateStemRequirements zero_gap_position (sample_frame (Some 73)) no_options
  /\
  calculateStemRequirements zero_gap_position (sample_frame None) no_options
  = calculateStemRequirements zero_gap_position (sample_frame (Some 73)) no_options.
Proof.
  split.
  - apply (head_tube_angle_defaults_to_73 zero_gap_position (sample_frame (Some 0))
             no_options).
    left. reflexivity.
  - apply (head_tube_angle_defaults_to_73 zero_gap_position (sample_frame None)
             no_options).
    right. reflexivity.
Defined.

(** ** The setup calculator *)

Lemma setup_fields fitData newFrame :
  let r := calculateBikeSetup fitData newFrame in
  BikeSetupCalculation.stem r
    = calculateStemRequirements (fitPosition fitData) newFrame no_options /\
  BikeSetupCalculation.seatpostExtension r = fst (seatpost fitData newFrame) /\
  BikeSetupCalculation.warnings r = snd (seatpost fitData newFrame) /\
  BikeSetupCalculation.seatpostOffsetNeeded r
    = fst (seatpost_offset fitData newFrame) /\
  BikeSetupCalculation.effectiveSeatTubeAngle r
    = effectiveSeatTubeAngle (fitPosition fitData) /\
  BikeSetupCalculation.notes r
    = notes (calculateStemRequirements (fitPosition fitData) newFrame no_options)
      ++ snd (seatpost_offset fitData newFrame)
      ++ (if ltb (Rabs (saddleSetback (fitPosition fitData))) 50
          then [note_forward] else []).
Proof.
  cbv zeta. unfold calculateBikeSetup.
  destruct (seatpost fitData newFrame) as [ext ws].
  destruct (seatpost_offset fitData newFrame) as [off ns].
  cbn [BikeSetupCalculation.stem BikeSetupCalculation.seatpostExtension
       BikeSetupCalculation.warnings BikeSetupCalculation.seatpostOffsetNeeded
       BikeSetupCalculation.effectiveSeatTubeAngle BikeSetupCalculation.notes
       fst snd].
  repeat split.
  destruct (ltb _ _); [reflexivity | now rewrite app_nil_r].
Qed.

(** The seatpost block when the frame gives a seat-tube length that is
    not 0. *)
Lemma seatpost_given fitData newFrame (len : R) :
  seatTubeLengthMm newFrame = Some len -> len <> 0 ->
  let e := js_round
             (js_minus
                (js_div (saddleHeight (fitPosition fitData))
                   (sin (radians (projection_angle fitData newFrame))))
                len) in
  seatpost fitData newFrame
  = (Some e,
     (if js_ltb e 50 then [warning_low e] else [])
     ++ (if js_gtb e 200 then [warning_high e] else [])).
Proof.
  intros Hlen Hnz. cbv zeta. unfold seatpost.
  rewrite Hlen, (truthy_nonzero len Hnz).
  destruct (js_ltb _ 50); destruct (js_gtb _ 200); reflexivity.
Qed.

(** The seatpost block when the frame gives no seat-tube length, or 0. *)
Lemma seatpost_not_given fitData newFrame :
  seatTubeLengthMm newFrame = None \/ seatTubeLengthMm newFrame = Some 0 ->
  seatpost fitData newFrame = (None, []).
Proof.
  intros Hlen. unfold seatpost. now rewrite (truthy_falsy _ Hlen).
Qed.

(** C7 (as the code behaves): the warnings of [calculateBikeSetup] are the
    seatpost warnings only.  With a [frame.seatTubeLengthMm] that is given
    and not 0, an extension is returned, and the insertion-depth warning is
    present exactly when it is below 50, the longer-seat-tube warning
    exactly when it is above 200, and nothing else; where the sine of the
    projection angle is not 0 the extension is
    [round(saddleHeight / sin(angle) - seatTubeLengthMm)] and the tests are
    the comparisons of that number.  With the length absent or 0,
    [seatpostExtension] is null and there is no warning. *)
Theorem seatpost_warning_iff fitData newFrame :
  let r := calculateBikeSetup fitData newFrame in
  let ext := BikeSetupCalculation.seatpostExtension r in
  let ws := BikeSetupCalculation.warnings r in
  let angle := projection_angle fitData newFrame in
  (forall len, seatTubeLengthMm newFrame = Some len -> len <> 0 ->
     exists e,
       ext = Some e /\
       (In (warning_low e) ws <-> js_ltb e 50 = true) /\
       (In (warning_high e) ws <-> js_gtb e 200 = true) /\
       (forall w, In w ws -> w = warning_low e \/ w = warning_high e) /\
       (ws <> [] <-> js_ltb e 50 = true \/ js_gtb e 200 = true) /\
       (List.length ws <= 1)%nat) /\
  (forall len, seatTubeLengthMm newFrame = Some len -> len <> 0 ->
     sin (radians angle) <> 0 ->
     let x := Math_round (saddleHeight (fitPosition fitData) / sin (radians angle)
                          - len) in
     ext = Some (Finite x) /\
     (In (warning_low (Finite x)) ws <-> x < 50) /\
     (In (warning_high (Finite x)) ws <-> x > 200) /\
     (ws <> [] <-> x < 50 \/ x > 200)) /\
  (seatTubeLengthMm newFrame = None \/ seatTubeLengthMm newFrame = Some 0 ->
     ext = None /\ ws = []).
Proof.
  cbv zeta.
  destruct (setup_fields fitData newFrame) as (_ & -> & -> & _).
  assert (forall e,
            let ws := (if js_ltb e 50 then [warning_low e] else [])
                      ++ (if js_gtb e 200 then [warning_high e] else []) in
            (In (warning_low e) ws <-> js_ltb e 50 = true) /\
            (In (warning_high e) ws <-> js_gtb e 200 = true) /\
            (forall w, In w ws -> w = warning_low e \/ w = warning_high e) /\
            (ws <> [] <-> js_ltb e 50 = true \/ js_gtb e 200 = true) /\
            (List.length ws <= 1)%nat) as Hws.
  { intros e. cbv zeta.
    assert (warning_low e <> warning_high e) as Hdiff by discriminate.
    pose proof (js_low_high_exclusive e) as Hex.
    destruct (js_ltb e 50); destruct (js_gtb e 200);
      try (exfalso; now apply Hex); cbn [app In List.length].
    - refine (conj _ (conj _ (conj _ (conj _ _)))).
      + split; [reflexivity | now left].
      + split; [intros [H | []]; congruence | discriminate].
      + intros w [<- | []]. now left.
      + split; [now left | discriminate].
      + lia.
    - refine (conj _ (conj _ (conj _ (conj _ _)))).
      + split; [intros [H | []]; congruence | discriminate].
      + split; [reflexivity | now left].
      + intros w [<- | []]. now right.
      + split; [now right | discriminate].
      + lia.
    - refine (conj _ (conj _ (conj _ (conj _ _)))).
      + split; [intros [] | discriminate].
      + split; [intros [] | discriminate].
      + intros w [].
      + split; [congruence | intros [H | H]; discriminate H].
      + lia. }
  refine (conj _ (conj _ _)).
  - intros len Hlen Hnz.
    rewrite (seatpost_given fitData newFrame len Hlen Hnz). cbn [fst snd].
    eexists. split; [reflexivity|]. apply Hws.
  - intros len Hlen Hnz Hsin.
    rewrite (seatpost_given fitData newFrame len Hlen Hnz). cbn [fst snd].
    rewrite (js_div_finite _ _ Hsin). cbn [js_minus js_round].
    set (x := Math_round _).
    destruct (Hws (Finite x)) as (Hlow & Hhigh & _ & Hany & _).
    cbn [js_ltb js_gtb] in *.
    rewrite ltb_true in Hlow, Hany. rewrite gtb_true in Hhigh, Hany.
    refine (conj eq_refl (conj Hlow (conj Hhigh Hany))).
  - intros Hlen. rewrite (seatpost_not_given fitData newFrame Hlen).
    split; reflexivity.
Qed.

Lemma seatpost_warning_iff_witness :
  let r := calculateBikeSetup (sample_fit 750 (-60) 73)
             (seat_frame (Some 73) (Some 520)) in
  let x := Math_round (750 / sin (radians 73) - 520) in
  BikeSetupCalculation.seatpostExtension r = Some (Finite x) /\
  (In (warning_high (Finite x)) (BikeSetupCalculation.warnings r) <-> x > 200).
Proof.
  assert (projection_angle (sample_fit 750 (-60) 73) (seat_frame (Some 73) (Some 520))
          = 73) as Hangle.
  { unfold projection_angle. cbn [seat_frame seatTubeAngle].
    apply js_or_nonzero. lra. }
  assert (sin (radians 73) <> 0) as Hsin.
  { pose proof (sin_degrees_pos 73). lra. }
  destruct (seatpost_warning_iff (sample_fit 750 (-60) 73)
              (seat_frame (Some 73) (Some 520))) as (_ & Hvalue & _).
  rewrite Hangle in Hvalue.
  destruct (Hvalue 520 eq_refl ltac:(lra) Hsin) as (Hext & _ & Hhigh & _).
  exact (conj Hext Hhigh).
Defined.

(** C7, the claim as stated, fails for a seat-tube length of 0: the field
    is present and the extension the specification computes from it is far
    above 200, yet the extension returned is null and there is no
    warning. *)
Lemma zero_seat_tube_length_unwarned :
  let fitData := sample_fit 750 (-60) 73 in
  let newFrame := seat_frame (Some 73) (Some 0) in
  let r := calculateBikeSetup fitData newFrame in
  seatTubeLengthMm newFrame = Some 0 /\
  specified_seatpost_extension fitData 0 > 200 /\
  BikeSetupCalculation.seatpostExtension r = None /\
  BikeSetupCalculation.warnings r = [].
Proof.
  cbv zeta.
  destruct (setup_fields (sample_fit 750 (-60) 73) (seat_frame (Some 73) (Some 0)))
    as (_ & -> & -> & _).
  rewrite seatpost_not_given by (right; reflexivity).
  refine (conj eq_refl (conj _ (conj eq_refl eq_refl))).
  unfold specified_seatpost_extension.
  cbn [sample_fit fitPosition effectiveSeatTubeAngle saddleHeight].
  pose proof (sin_degrees_pos 73 ltac:(lra)) as Hpos.
  pose proof (SIN_bound (radians 73)) as [_ Hle].
  assert (750 <= 750 / sin (radians 73)) as Hdiv
      by (apply div_by_fraction; lra).
  pose proof (Math_round_bounds (750 / sin (radians 73) - 0)). lra.
Qed.

(** The notes of the solver and of the offset block are never the
    forward-saddle note. *)
Lemma solver_notes_not_forward fitPosition newFrame options :
  ~ In note_forward (notes (calculateStemRequirements fitPosition newFrame options)).
Proof.
  unfold calculateStemRequirements, calculateStemRequirements_fuel.
  destruct (find_best _ _ _ _) as [b|].
  - unfold best_solution_result. cbn [notes].
    destruct (gtb (Rabs (best_stackDelta _ _ _)) 5);
      destruct (gtb (Rabs (best_reachDelta _ _ _)) 5);
      destruct (neqb _ _); cbn [app In];
      intros H; repeat (destruct H as [H | H]; [discriminate H|]); exact H.
  - cbn. intros [H | []]. discriminate H.
Qed.

Lemma offset_notes_not_forward fitData newFrame :
  ~ In note_forward (snd (seatpost_offset fitData newFrame)).
Proof.
  unfold seatpost_offset.
  destruct (gtb _ (1 / 2)); [|intros []].
  destruct (gtb _ 15); [intros [H | []]; discriminate H|].
  destruct (gtb _ 8); [intros [H | []]; discriminate H|].
  destruct (ltb _ (-15)); [intros [H | []]; discriminate H | intros []].
Qed.

(** C10: when [|saddleSetback| < 50] the notes of [calculateBikeSetup] end
    with 'Forward saddle position - ensure saddle rails allow this
    adjustment', after the solver's notes (and the offset note, if any);
    when [|saddleSetback| >= 50] no note of the result is that entry. *)
Theorem forward_saddle_note fitData newFrame :
  let r := calculateBikeSetup fitData newFrame in
  let setback := saddleSetback (fitPosition fitData) in
  let forward :=
    [Txt "Forward saddle position - ensure saddle rails allow this adjustment"] in
  (Rabs setback < 50 ->
     In forward (BikeSetupCalculation.notes r) /\
     exists own,
       BikeSetupCalculation.notes r
       = notes (BikeSetupCalculation.stem r) ++ own ++ [forward]) /\
  (Rabs setback >= 50 -> ~ In forward (BikeSetupCalculation.notes r)).
Proof.
  cbv zeta.
  destruct (setup_fields fitData newFrame) as (-> & _ & _ & _ & _ & ->).
  fold note_forward. split.
  - intros Hnear. apply ltb_true in Hnear. rewrite Hnear. split.
    + apply in_or_app. right. apply in_or_app. right. now left.
    + now exists (snd (seatpost_offset fitData newFrame)).
  - intros Hfar.
    replace (ltb _ 50) with false by (symmetry; apply ltb_false; lra).
    rewrite app_nil_r. intros Hin.
    apply in_app_or in Hin as [Hin | Hin].
    + now apply solver_notes_not_forward in Hin.
    + now apply offset_notes_not_forward in Hin.
Qed.

Lemma forward_saddle_note_witness :
  In note_forward
     (BikeSetupCalculation.notes
        (calculateBikeSetup (sample_fit 750 (-30) 73) (seat_frame (Some 73) None)))
  /\
  ~ In note_forward
      (BikeSetupCalculation.notes
         (calculateBikeSetup (sample_fit 750 (-60) 73) (seat_frame (Some 73) None))).
Proof.
  split.
  - destruct (forward_saddle_note (sample_fit 750 (-30) 73)
                (seat_frame (Some 73) None)) as [Hnear _].
    apply Hnear. simpl. unfold Rabs. destruct (Rcase_abs _); lra.
  - destruct (forward_saddle_note (sample_fit 750 (-60) 73)
                (seat_frame (Some 73) None)) as [_ Hfar].
    apply Hfar. simpl. unfold Rabs. destruct (Rcase_abs _); lra.
Defined.

(** ** The seatpost offset *)

(** One degree: [tan] of it is a little above 1/61. *)
Lemma tan_one_degree : 1 / 61 < tan (radians 1).
Proof.
  pose proof PI_gt_3 as Hpi3. pose proof PI_4 as Hpi4.
  set (x := radians 1).
  assert (1 / 60 < x <= 1 / 45) as [Hlo Hhi] by (unfold x, radians; lra).
  assert (x - x * x * x / 6 <= sin x) as Hsin by (apply sin_lower; lra).
  assert (0 < cos x) as Hcos0 by (apply cos_gt_0; lra).
  assert (cos x <= 1) as Hcos1 by apply COS_bound.
  assert (1 / 61 < sin x) as Hs by nra.
  unfold tan. apply Rlt_le_trans with (sin x); [exact Hs|].
  apply div_by_fraction; lra.
Qed.

(** C4 (as the code behaves): with
    [staDifference = effectiveSeatTubeAngle - (frame.seatTubeAngle || 73)]
    (an absent or zero frame angle counts as 73) and
    [|staDifference| > 0.5], the offset is 25 when
    [setbackDifference = staDifference * saddleHeight * tan(1 degree)]
    exceeds 15, else 20 when it exceeds 8, else 0; the 25, the 20 and the
    below -15 branch each push the note naming both angles; and an
    effective angle of 76 on a 73 degree frame with a saddle height of 750
    gives an offset of 25. *)
Theorem seatpost_offset_rule fitData newFrame :
  let r := calculateBikeSetup fitData newFrame in
  let effectiveSTA := effectiveSeatTubeAngle (fitPosition fitData) in
  let frameSTA := js_or (seatTubeAngle newFrame) 73 in
  let staDifference := effectiveSTA - frameSTA in
  let setbackDifference :=
    staDifference * (saddleHeight (fitPosition fitData) * tan (radians 1)) in
  let offset := BikeSetupCalculation.seatpostOffsetNeeded r in
  let ns := BikeSetupCalculation.notes r in
  (Rabs staDifference > 1 / 2 ->
     (setbackDifference > 15 ->
        offset = 25 /\ In (note_offset25 frameSTA effectiveSTA) ns) /\
     (setbackDifference <= 15 -> setbackDifference > 8 ->
        offset = 20 /\ In (note_offset20 frameSTA effectiveSTA) ns) /\
     (setbackDifference <= 8 -> setbackDifference < -15 ->
        offset = 0 /\ In (note_offset0 frameSTA effectiveSTA) ns) /\
     (-15 <= setbackDifference <= 8 -> offset = 0)) /\
  (effectiveSTA = 76 -> seatTubeAngle newFrame = Some 73 ->
   saddleHeight (fitPosition fitData) = 750 -> offset = 25).
Proof.
  cbv zeta.
  destruct (setup_fields fitData newFrame) as (_ & _ & _ & -> & _ & ->).
  unfold seatpost_offset, frame_sta.
  change ((1 * PI) / 180) with (radians 1).
  set (effectiveSTA := effectiveSeatTubeAngle (fitPosition fitData)).
  set (frameSTA := js_or (seatTubeAngle newFrame) 73).
  set (d := effectiveSTA - frameSTA).
  set (sb := d * (saddleHeight (fitPosition fitData) * tan (radians 1))).
  split.
  - intros Hd. apply gtb_true in Hd. rewrite Hd.
    split; [|split; [|split]].
    + intros H15. apply gtb_true in H15. rewrite H15. cbn [fst snd].
      split; [reflexivity|]. apply in_or_app. right. now left.
    + intros H15 H8. apply gtb_false in H15. apply gtb_true in H8.
      rewrite H15, H8. cbn [fst snd].
      split; [reflexivity|]. apply in_or_app. right. now left.
    + intros H8 Hneg. apply ltb_true in Hneg.
      replace (gtb sb 15) with false by (symmetry; apply gtb_false; lra).
      replace (gtb sb 8) with false by (symmetry; apply gtb_false; lra).
      rewrite Hneg. cbn [fst snd].
      split; [reflexivity|]. apply in_or_app. right. now left.
    + intros [Hlo Hhi].
      replace (gtb sb 15) with false by (symmetry; apply gtb_false; lra).
      replace (gtb sb 8) with false by (symmetry; apply gtb_false; lra).
      replace (ltb sb (-15)) with false by (symmetry; apply ltb_false; lra).
      reflexivity.
  - intros Heff Hframe Hheight.
    pose proof tan_one_degree as Htan.
    assert (frameSTA = 73) as Hf.
    { unfold frameSTA. rewrite Hframe. apply js_or_nonzero. lra. }
    assert (d = 3) as Hd3 by (unfold d; lra).
    assert (sb > 15) as Hsb by (unfold sb; rewrite Hd3, Hheight; nra).
    replace (gtb (Rabs d) (1 / 2)) with true
      by (symmetry; apply gtb_true; rewrite Hd3, Rabs_right; lra).
    apply gtb_true in Hsb. now rewrite Hsb.
Qed.

Lemma seatpost_offset_rule_witness :
  BikeSetupCalculation.seatpostOffsetNeeded
    (calculateBikeSetup (sample_fit 750 (-60) 76) (seat_frame (Some 73) None)) = 25.
Proof.
  destruct (seatpost_offset_rule (sample_fit 750 (-60) 76)
              (seat_frame (Some 73) None)) as [_ Hexample].
  apply Hexample; reflexivity.
Defined.

(** C4, the claim as stated, fails for a frame whose [seatTubeAngle] is 0:
    read with [frame.seatTubeAngle ?? 73] the angle difference is 73
    degrees and the offset 25, while the code takes the frame angle to be
    73 and returns 0. *)
Lemma zero_seat_tube_angle_offset :
  let fitData := sample_fit 750 (-60) 73 in
  let newFrame := seat_frame (Some 0) None in
  specified_seatpost_offset fitData newFrame = 25 /\
  BikeSetupCalculation.seatpostOffsetNeeded (calculateBikeSetup fitData newFrame) = 0 /\
  BikeSetupCalculation.seatpostOffsetNeeded (calculateBikeSetup fitData newFrame)
  <> specified_seatpost_offset fitData newFrame.
Proof.
  cbv zeta.
  cut (specified_seatpost_offset (sample_fit 750 (-60) 73) (seat_frame (Some 0) None)
       = 25 /\
       BikeSetupCalculation.seatpostOffsetNeeded
         (calculateBikeSetup (sample_fit 750 (-60) 73) (seat_frame (Some 0) None))
       = 0).
  { intros [-> ->]. repeat split. lra. }
  split.
  - unfold specified_seatpost_offset. simpl.
    pose proof tan_one_degree as Htan.
    replace (gtb (Rabs (73 - 0)) (1 / 2)) with true
      by (symmetry; apply gtb_true; rewrite Rabs_right; lra).
    replace (gtb ((73 - 0) * 750 * tan (radians 1)) 15) with true
      by (symmetry; apply gtb_true; nra).
    reflexivity.
  - destruct (setup_fields (sample_fit 750 (-60) 73) (seat_frame (Some 0) None))
      as (_ & _ & _ & -> & _).
    unfold seatpost_offset, frame_sta.
    cbn [sample_fit seat_frame seatTubeAngle fitPosition effectiveSeatTubeAngle
         saddleHeight].
    rewrite js_or_zero.
    replace (gtb (Rabs (73 - 73)) (1 / 2)) with false
      by (symmetry; apply gtb_false;
          replace (73 - 73) with 0 by lra; rewrite Rabs_R0; lra).
    reflexivity.
Qed.

(** ** The seatpost extension *)

(** The sines of 73 and 76 degrees are more than 0.012 apart. *)
Lemma sin_76_minus_sin_73 :
  0 < sin (radians 73) /\ sin (radians 76) <= 1 /\
  12 / 1000 < sin (radians 76) - sin (radians 73).
Proof.
  pose proof PI_gt_3 as Hpi3. pose proof PI_4 as Hpi4.
  split; [apply sin_gt_0; unfold radians; lra|].
  split; [apply SIN_bound|].
  rewrite form4.
  replace ((radians 76 + radians 73) / 2) with (PI / 2 - radians (31 / 2))
    by (unfold radians; lra).
  replace ((radians 76 - radians 73) / 2) with (radians (3 / 2))
    by (unfold radians; lra).
  rewrite cos_shift.
  set (x := radians (3 / 2)). set (y := radians (31 / 2)).
  assert (25 / 1000 < x <= 34 / 1000) as [Hx0 Hx1] by (unfold x, radians; lra).
  assert (258 / 1000 < y <= 345 / 1000) as [Hy0 Hy1] by (unfold y, radians; lra).
  assert (x - x * x * x / 6 <= sin x) as Hsx by (apply sin_lower; lra).
  assert (y - y * y * y / 6 <= sin y) as Hsy by (apply sin_lower; lra).
  assert (249 / 10000 < sin x) as Hx by nra.
  assert (25 / 100 < sin y) as Hy by nra.
  nra.
Qed.

(** Projected along 73 degrees, a saddle height of 750 is more than 1 mm
    longer than projected along 76 degrees. *)
Lemma projection_73_vs_76 :
  750 / sin (radians 76) - 520 + 1 < 750 / sin (radians 73) - 520.
Proof.
  destruct sin_76_minus_sin_73 as (Hu & Hv & Hgap).
  set (u := sin (radians 73)) in *. set (v := sin (radians 76)) in *.
  assert (0 < v) as Hv0 by lra.
  assert (750 / u - 750 / v = 750 * (v - u) / (u * v)) as E by (field; lra).
  assert (0 < u * v <= 1) as [Huv0 Huv1] by nra.
  assert (750 * (v - u) <= 750 * (v - u) / (u * v)) as Hdiv
      by (apply div_by_fraction; lra).
  lra.
Qed.

(** C3 (as the code behaves): the saddle height is projected along
    [frame.seatTubeAngle] when that is given and not 0, else along the
    fit's [effectiveSeatTubeAngle] when that is not 0, else along 73
    degrees; whenever [frame.seatTubeLengthMm] is given and not 0 an
    extension is returned, and where the sine of the angle is not 0 it is
    [seatpostExtension = round(saddleHeight / sin(angle in radians)
    - seatTubeLengthMm)]; with the length absent or 0 the extension is
    null; and the returned [effectiveSeatTubeAngle] is the fit's value. *)
Theorem seatpost_extension_projection fitData newFrame :
  let r := calculateBikeSetup fitData newFrame in
  let effectiveSTA := effectiveSeatTubeAngle (fitPosition fitData) in
  let angle := js_or (seatTubeAngle newFrame) (js_or (Some effectiveSTA) 73) in
  (forall s, seatTubeAngle newFrame = Some s -> s <> 0 -> angle = s) /\
  (seatTubeAngle newFrame = None \/ seatTubeAngle newFrame = Some 0 ->
     (effectiveSTA <> 0 -> angle = effectiveSTA) /\
     (effectiveSTA = 0 -> angle = 73)) /\
  angle <> 0 /\
  (forall len, seatTubeLengthMm newFrame = Some len -> len <> 0 ->
     BikeSetupCalculation.seatpostExtension r <> None /\
     (sin (radians angle) <> 0 ->
      BikeSetupCalculation.seatpostExtension r
      = Some (Finite (Math_round (saddleHeight (fitPosition fitData)
                                  / sin (radians angle) - len))))) /\
  (seatTubeLengthMm newFrame = None \/ seatTubeLengthMm newFrame = Some 0 ->
     BikeSetupCalculation.seatpostExtension r = None) /\
  BikeSetupCalculation.effectiveSeatTubeAngle r = effectiveSTA.
Proof.
  cbv zeta.
  destruct (setup_fields fitData newFrame) as (_ & -> & _ & _ & -> & _).
  refine (conj _ (conj _ (conj _ (conj _ (conj _ eq_refl))))).
  - intros s -> Hs. now apply js_or_nonzero.
  - intros Hframe. split.
    + intros Heff.
      destruct Hframe as [-> | ->]; [|rewrite js_or_zero]; now apply js_or_nonzero.
    + intros ->.
      destruct Hframe as [-> | ->]; [|rewrite js_or_zero]; cbn [js_or];
        apply js_or_zero.
  - assert (forall x d, d <> 0 -> js_or x d <> 0) as Hor.
    { intros [v|] d Hd; unfold js_or; [destruct (Req_dec_T v 0)|]; assumption. }
    apply Hor, Hor. lra.
  - intros len Hlen Hnz.
    rewrite (seatpost_given fitData newFrame len Hlen Hnz). cbn [fst].
    split; [discriminate|].
    intros Hsin. unfold projection_angle.
    rewrite (js_div_finite _ _ Hsin). reflexivity.
  - intros Hlen. now rewrite (seatpost_not_given fitData newFrame Hlen).
Qed.

Lemma seatpost_extension_projection_witness :
  BikeSetupCalculation.seatpostExtension
    (calculateBikeSetup (sample_fit 750 (-60) 76) (seat_frame (Some 73) (Some 520)))
  = Some (Finite (Math_round (750 / sin (radians 73) - 520))).
Proof.
  destruct (seatpost_extension_projection (sample_fit 750 (-60) 76)
              (seat_frame (Some 73) (Some 520))) as (Hangle & _ & _ & Hext & _).
  rewrite (Hangle 73 eq_refl ltac:(lra)) in Hext.
  destruct (Hext 520 eq_refl ltac:(lra)) as [_ Hvalue].
  apply Hvalue.
  pose proof (sin_degrees_pos 73). lra.
Defined.

(** C3, the claim as stated, fails: for a fit with an effective seat-tube
    angle of 76 degrees on a frame with a 73 degree seat tube of 520 mm,
    the extension is computed along 73 degrees, not along the fit's 76. *)
Lemma extension_uses_frame_angle :
  let fitData := sample_fit 750 (-60) 76 in
  let newFrame := seat_frame (Some 73) (Some 520) in
  BikeSetupCalculation.seatpostExtension (calculateBikeSetup fitData newFrame)
  = Some (Finite (Math_round (750 / sin (radians 73) - 520))) /\
  BikeSetupCalculation.seatpostExtension (calculateBikeSetup fitData newFrame)
  <> Some (Finite (specified_seatpost_extension fitData 520)).
Proof.
  cbv zeta.
  destruct (setup_fields (sample_fit 750 (-60) 76) (seat_frame (Some 73) (Some 520)))
    as (_ & -> & _).
  assert (fst (seatpost (sample_fit 750 (-60) 76) (seat_frame (Some 73) (Some 520)))
          = Some (Finite (Math_round (750 / sin (radians 73) - 520)))) as E.
  { rewrite (seatpost_given (sample_fit 750 (-60) 76)
               (seat_frame (Some 73) (Some 520)) 520 eq_refl) by lra.
    cbn [fst].
    unfold projection_angle.
    cbn [sample_fit seat_frame seatTubeAngle seatTubeLengthMm fitPosition
         effectiveSeatTubeAngle saddleHeight].
    rewrite (js_or_nonzero 73) by lra.
    rewrite js_div_finite by (pose proof (sin_degrees_pos 73); lra).
    reflexivity. }
  rewrite E. split; [reflexivity|].
  intros [= Heq]. revert Heq.
  apply Math_round_apart.
  cbn [sample_fit fitPosition effectiveSeatTubeAngle saddleHeight].
  exact projection_73_vs_76.
Qed.

(** ** The calculators on the store *)

Lemma update_app_r (h l : Store.store) (i : nat) f :
  Store.update (List.length h + i)%nat f (h ++ l) = h ++ Store.update i f l.
Proof.
  induction h as [|arr h IH]; simpl; [reflexivity|].
  now rewrite IH.
Qed.

Lemma update_last (h : Store.store) (arr : list message) f :
  Store.update (List.length h) f (h ++ [arr]) = h ++ [f arr].
Proof.
  rewrite <- (Nat.add_0_r (List.length h)). now rewrite update_app_r.
Qed.

Lemma when_push_last (b : bool) (h : Store.store) (arr : list message) m :
  Store.when b (Store.push (List.length h) m) (h ++ [arr])
  = (tt, h ++ [if b then arr ++ [m] else arr]).
Proof.
  destruct b; [|reflexivity].
  unfold Store.when, Store.push. now rewrite update_last.
Qed.

(** A call of the solver allocates one array, fills it with the notes of
    [calculateStemRequirements], and leaves the rest of the store as it
    was. *)
Lemma calculateStemRequirements_st_run fitPosition newFrame options h :
  calculateStemRequirements_st fitPosition newFrame options h
  = (stem_ref_of (calculateStemRequirements fitPosition newFrame options)
       (List.length h),
     h ++ [notes (calculateStemRequirements fitPosition newFrame options)]).
Proof.
  unfold calculateStemRequirements_st, calculateStemRequirements,
    calculateStemRequirements_fuel, Store.bind.
  unfold Store.new_array at 1.
  destruct (find_best _ _ _ _) as [b|].
  - rewrite !when_push_last. reflexivity.
  - unfold Store.push. rewrite update_last. reflexivity.
Qed.

Lemma load_stem_ref_of (r : StemCalculation) (h ext : Store.store) :
  load_stem (h ++ notes r :: ext) (stem_ref_of r (List.length h)) = r.
Proof.
  destruct r. unfold load_stem, stem_ref_of. cbn. now rewrite nth_middle.
Qed.

Lemma push_app (h l : Store.store) (i : nat) m :
  Store.push (List.length h + i)%nat m (h ++ l)
  = (tt, h ++ Store.update i (fun arr => arr ++ [m]) l).
Proof. unfold Store.push. now rewrite update_app_r. Qed.

Lemma push_app_0 (h l : Store.store) m :
  Store.push (List.length h) m (h ++ l)
  = (tt, h ++ Store.update 0%nat (fun arr => arr ++ [m]) l).
Proof. rewrite <- (Nat.add_0_r (List.length h)) at 1. apply push_app. Qed.

(** Runs the store operations of a straight-line piece of code. *)
Ltac run_store :=
  unfold Store.when, Store.ret, Store.read, Store.new_array;
  cbv beta iota;
  repeat (rewrite ?push_app, ?push_app_0; cbv beta iota;
          cbn [Store.update app ref_notes stem_ref_of]);
  rewrite ?app_nth2_plus, ?nth_middle, ?length_app, <- ?app_assoc;
  cbn [nth app List.length].

(** A call of the setup calculator allocates four arrays (its notes, its
    warnings, the solver's notes and the merged notes) and leaves the rest
    of the store as it was. *)
Lemma calculateBikeSetup_st_run fitData newFrame h :
  let r := calculateBikeSetup fitData newFrame in
  calculateBikeSetup_st fitData newFrame h
  = (setup_ref_of r (List.length h + 2)%nat (List.length h + 3)%nat
       (List.length h + 1)%nat,
     h ++ [snd (seatpost_offset fitData newFrame)
             ++ (if ltb (Rabs (saddleSetback (fitPosition fitData))) 50
                 then [note_forward] else []);
           BikeSetupCalculation.warnings r;
           notes (BikeSetupCalculation.stem r);
           BikeSetupCalculation.notes r]).
Proof.
  cbv zeta.
  unfold calculateBikeSetup_st, Store.bind.
  unfold Store.new_array at 1 2.
  rewrite calculateStemRequirements_st_run.
  rewrite <- !app_assoc, !length_app. cbn [List.length app Nat.add].
  unfold calculateBikeSetup, seatpost, seatpost_offset, setup_ref_of.
  destruct (truthy (seatTubeLengthMm newFrame)) as [len|];
    [destruct (js_ltb _ 50); destruct (js_gtb _ 200)|];
    destruct (gtb (Rabs _) (1 / 2));
    try (destruct (gtb _ 15); [|destruct (gtb _ 8); [|destruct (ltb _ (-15))]]);
    destruct (ltb (Rabs _) 50);
    run_store; reflexivity.
Qed.

Lemma load_setup_ref_of (r : BikeSetupCalculation.t) (h ext : Store.store)
    (own : list message) :
  load_setup
    (h ++ [own; BikeSetupCalculation.warnings r;
           notes (BikeSetupCalculation.stem r); BikeSetupCalculation.notes r]
       ++ ext)
    (setup_ref_of r (List.length h + 2)%nat (List.length h + 3)%nat
       (List.length h + 1)%nat)
  = r.
Proof.
  destruct r as [st ? ? ? ? ? ? ? ? ns ws]. destruct st.
  unfold load_setup, load_stem, setup_ref_of, stem_ref_of.
  cbn [ref_stem ref_notes ref_setup_notes ref_warnings
       BikeSetupCalculation.stem BikeSetupCalculation.notes
       BikeSetupCalculation.warnings notes].
  rewrite !app_nth2_plus. reflexivity.
Qed.

(** Every call only appends to the store, and what it returns reads the
    same in every later store. *)
Lemma run_call_st_frame (c : Call) (h : Store.store) :
  exists r fresh,
    run_call_st c h = (r, h ++ fresh) /\
    forall ext, load_outcome (h ++ fresh ++ ext) r = run_call c.
Proof.
  destruct c as [fitPosition newFrame options | fitData newFrame];
    unfold run_call_st, Store.bind.
  - rewrite calculateStemRequirements_st_run.
    eexists _, _. split; [reflexivity|].
    intros ext. cbn [load_outcome run_call app]. f_equal.
    apply load_stem_ref_of.
  - rewrite calculateBikeSetup_st_run.
    eexists _, _. split; [reflexivity|].
    intros ext. cbn [load_outcome run_call]. f_equal.
    apply load_setup_ref_of.
Qed.

Lemma run_calls_st_frame (calls : list Call) :
  forall h, exists rs fresh,
    run_calls_st calls h = (rs, h ++ fresh) /\
    forall ext, map (load_outcome (h ++ fresh ++ ext)) rs = map run_call calls.
Proof.
  induction calls as [|c rest IH]; intros h.
  - exists [], []. split; [cbn; now rewrite app_nil_r | reflexivity].
  - destruct (run_call_st_frame c h) as (r & f1 & Hrun & Hload).
    destruct (IH (h ++ f1)) as (rs & f2 & Hrest & Hloads).
    exists (r :: rs), (f1 ++ f2). split.
    + cbn [run_calls_st]. unfold Store.bind. rewrite Hrun, Hrest.
      unfold Store.ret. now rewrite app_assoc.
    + intros ext. cbn [map]. f_equal.
      * rewrite <- app_assoc. apply Hload.
      * specialize (Hloads ext). rewrite <- !app_assoc in *. exact Hloads.
Qed.

(** A session on the store yields, call by call, the values of the two
    functions. *)
Lemma observe_run_calls (calls : list Call) (h0 : Store.store) :
  observe calls h0 = map run_call calls.
Proof.
  unfold observe.
  destruct (run_calls_st_frame calls h0) as (rs & fresh & -> & Hloads).
  specialize (Hloads []). now rewrite app_nil_r in Hloads.
Qed.

(** C8: both functions are deterministic.  Whatever calls a session makes
    before and after, and whatever store it starts from, a call with given
    inputs is observed with one and the same result: two calls with
    identical inputs, in any two sessions and at any positions, yield
    identical results, and running a call leaves every array allocated
    before it unchanged. *)
Theorem calls_deterministic (calls1 calls2 : list Call) (h1 h2 : Store.store)
    (i j : nat) (c : Call) :
  nth_error calls1 i = Some c ->
  nth_error calls2 j = Some c ->
  nth_error (observe calls1 h1) i = nth_error (observe calls2 h2) j /\
  nth_error (observe calls1 h1) i = Some (run_call c) /\
  exists fresh, snd (run_calls_st calls1 h1) = h1 ++ fresh.
Proof.
  intros Hi Hj. rewrite !observe_run_calls.
  rewrite (map_nth_error run_call i calls1 Hi).
  rewrite (map_nth_error run_call j calls2 Hj).
  repeat split.
  destruct (run_calls_st_frame calls1 h1) as (rs & fresh & -> & _).
  now exists fresh.
Qed.

Lemma calls_deterministic_witness :
  let stemCall := CallStem zero_gap_position (sample_frame (Some 73)) no_options in
  let setupCall := CallSetup (sample_fit 750 (-60) 76) (seat_frame (Some 73) None) in
  nth_error (observe [stemCall; setupCall; stemCall] []) 0
  = nth_error (observe [setupCall; setupCall; stemCall] [[note_forward]]) 2.
Proof.
  cbv zeta.
  apply (calls_deterministic _ _ _ _ 0 2
           (CallStem zero_gap_position (sample_frame (Some 73)) no_options));
    reflexivity.
Defined.

(** * Further properties of the calculators and their callers *)

(** ** The winner of the search *)

Lemma visited_before_next (k' a' k a : Z) :
  visited_before k' a' k (a + 1) <->
  visited_before k' a' k a \/ (k' = k /\ a' = a).
Proof. unfold visited_before. lia. Qed.

Section SearchOrderFacts.

Variables (hta minLen maxLen maxSp pref requiredStackGain requiredReachGain : R).

#[local] Abbreviation step :=
  (try_angle hta minLen maxLen pref requiredStackGain requiredReachGain).
#[local] Abbreviation outer :=
  (spacer_loop hta minLen maxLen maxSp pref requiredStackGain requiredReachGain).
#[local] Abbreviation valid := (grid_valid hta minLen maxLen requiredStackGain requiredReachGain).
#[local] Abbreviation err := (grid_error hta pref requiredStackGain requiredReachGain).
#[local] Abbreviation cand :=
  (candidate_solution hta pref requiredStackGain requiredReachGain).
#[local] Abbreviation upto :=
  (best_upto hta minLen maxLen maxSp pref requiredStackGain requiredReachGain).

(** One turn of the inner loop: the candidate is skipped, or it is the
    first valid one, or it beats the best so far, or it does not. *)
Lemma step_outcome (k a : Z) (best : option Solution) :
  (~ valid k a /\ step (IZR (5 * k)) best a = best) \/
  (valid k a /\ best = None /\
   step (IZR (5 * k)) best a = Some (cand (IZR (5 * k)) a)) \/
  (valid k a /\ exists b, best = Some b /\ err k a < sol_error b /\
   step (IZR (5 * k)) best a = Some (cand (IZR (5 * k)) a)) \/
  (valid k a /\ exists b, best = Some b /\ sol_error b <= err k a /\
   step (IZR (5 * k)) best a = best).
Proof.
  unfold try_angle, grid_valid, valid_candidate, grid_error.
  destruct (ltb _ _) eqn:Hcos.
  { left. split; [|reflexivity]. apply ltb_true in Hcos. intros [Hc _]. lra. }
  apply ltb_false in Hcos.
  destruct (geb _ _ && leb _ _)%bool eqn:Hrange.
  - apply in_range_true in Hrange. right.
    destruct best as [b|].
    + destruct (ltb _ (sol_error b)) eqn:Hbetter.
      * right. left. apply ltb_true in Hbetter. split; [now split|].
        exists b. repeat split. exact Hbetter.
      * right. right. apply ltb_false in Hbetter. split; [now split|].
        exists b. repeat split. exact Hbetter.
    + left. split; [now split|]. split; reflexivity.
  - left. split; [|reflexivity]. intros [_ Hr].
    apply in_range_true in Hr. congruence.
Qed.

Lemma upto_step (k a : Z) (best : option Solution) :
  (0 <= k)%Z -> IZR (5 * k) <= maxSp -> (-17 <= a <= 17)%Z ->
  upto k a best -> upto k (a + 1) (step (IZR (5 * k)) best a).
Proof.
  intros Hk Hsp Ha Hinv.
  destruct (step_outcome k a best)
    as [[Hinvalid ->] | [(Hv & -> & ->) | [(Hv & b & -> & Hlt & ->)
                                          | (Hv & b & -> & Hle & ->)]]].
  - (* skipped *)
    destruct best as [b|]; cbn [best_upto] in *.
    + destruct Hinv as (kb & ab & Hkb & Hspb & Hab & Hbefore & Hvb & Eb & Hmin).
      exists kb, ab.
      refine (conj Hkb (conj Hspb (conj Hab (conj _ (conj Hvb (conj Eb _)))))).
      * apply visited_before_next. now left.
      * intros k' a' Hk' Ha' Hbef Hval.
        apply visited_before_next in Hbef as [Hold | [-> ->]];
          [now apply Hmin | contradiction].
    + intros k' a' Hk' Ha' Hbef.
      apply visited_before_next in Hbef as [Hold | [-> ->]];
        [now apply Hinv | exact Hinvalid].
  - (* the first valid candidate *)
    cbn [best_upto] in *.
    exists k, a.
    refine (conj Hk (conj Hsp (conj Ha (conj _ (conj Hv (conj eq_refl _)))))).
    + apply visited_before_next. now right.
    + intros k' a' Hk' Ha' Hbef Hval.
      apply visited_before_next in Hbef as [Hold | [-> ->]].
      * exfalso. now apply (Hinv k' a').
      * split; [lra|]. unfold visited_before. lia.
  - (* a strictly better candidate *)
    cbn [best_upto] in *.
    destruct Hinv as (kb & ab & Hkb & Hspb & Hab & Hbefore & Hvb & Eb & Hmin).
    assert (sol_error b = err kb ab) as Eerr by (rewrite Eb; reflexivity).
    exists k, a.
    refine (conj Hk (conj Hsp (conj Ha (conj _ (conj Hv (conj eq_refl _)))))).
    + apply visited_before_next. now right.
    + intros k' a' Hk' Ha' Hbef Hval.
      apply visited_before_next in Hbef as [Hold | [-> ->]].
      * destruct (Hmin k' a') as [Hle _]; try assumption.
        split; [lra | intros _; lra].
      * split; [lra|]. unfold visited_before. lia.
  - (* the best so far stays *)
    cbn [best_upto] in *.
    destruct Hinv as (kb & ab & Hkb & Hspb & Hab & Hbefore & Hvb & Eb & Hmin).
    assert (sol_error b = err kb ab) as Eerr by (rewrite Eb; reflexivity).
    exists kb, ab.
    refine (conj Hkb (conj Hspb (conj Hab (conj _ (conj Hvb (conj Eb _)))))).
    + apply visited_before_next. now left.
    + intros k' a' Hk' Ha' Hbef Hval.
      apply visited_before_next in Hbef as [Hold | [-> ->]];
        [now apply Hmin|].
      split; [lra|]. unfold visited_before in *. lia.
Qed.

(** The inner loop brings the invariant from the first angle to past the
    last one. *)
Lemma upto_angles (k : Z) (n s : nat) (best : option Solution) :
  (0 <= k)%Z -> IZR (5 * k) <= maxSp -> (s + n <= 35)%nat ->
  upto k (Z.of_nat s - 17) best ->
  upto k (Z.of_nat (s + n) - 17)
       (fold_left (step (IZR (5 * k)))
          (map (fun i => (Z.of_nat i - 17)%Z) (seq s n)) best).
Proof.
  intros Hk Hsp. revert s best.
  induction n as [|n IH]; intros s best Hn Hinv.
  - rewrite Nat.add_0_r. exact Hinv.
  - cbn [seq map fold_left].
    replace (s + S n)%nat with (S s + n)%nat by lia.
    apply IH; [lia|].
    replace (Z.of_nat (S s) - 17)%Z with (Z.of_nat s - 17 + 1)%Z by lia.
    apply upto_step; try assumption. lia.
Qed.

Lemma upto_next_spacer (k : Z) (best : option Solution) :
  upto k 18 best -> upto (k + 1) (-17) best.
Proof.
  assert (forall k' a', (-17 <= a' <= 17)%Z ->
            (visited_before k' a' (k + 1) (-17) <-> visited_before k' a' k 18))
    as Hsame by (unfold visited_before; lia).
  destruct best as [b|]; cbn [best_upto].
  - intros (kb & ab & Hkb & Hspb & Hab & Hbefore & Hvb & Eb & Hmin).
    exists kb, ab.
    refine (conj Hkb (conj Hspb (conj Hab (conj _ (conj Hvb (conj Eb _)))))).
    + now apply Hsame.
    + intros k' a' Hk' Ha' Hbef Hval. apply Hmin; try assumption.
      now apply Hsame.
  - intros Hinv k' a' Hk' Ha' Hbef. apply Hinv; try assumption.
    now apply Hsame.
Qed.

(** With enough fuel the outer loop ends past [maxSpacers] with the
    invariant for every grid point before its final counter. *)
Lemma upto_outer (fuel : nat) :
  forall (k : Z) (best : option Solution),
    (0 <= k)%Z -> (up (maxSp / 5) < Z.of_nat fuel + k)%Z ->
    upto k (-17) best ->
    exists k_end, (k <= k_end)%Z /\ maxSp < IZR (5 * k_end) /\
                  upto k_end (-17) (outer fuel (5 * k)%Z best).
Proof.
  destruct (archimed (maxSp / 5)) as [Hup _].
  induction fuel as [|fuel IH]; intros k best Hk Hfuel Hinv.
  - exists k. split; [lia|]. split; [|exact Hinv].
    assert (IZR (up (maxSp / 5)) <= IZR k) as Hge by (apply IZR_le; lia).
    rewrite mult_IZR. lra.
  - rewrite outer_S. destruct (leb _ _) eqn:Hcond.
    + apply leb_true in Hcond.
      replace (5 * k + 5)%Z with (5 * (k + 1))%Z by lia.
      destruct (IH (k + 1)%Z
                  (angle_loop hta minLen maxLen pref requiredStackGain
                     requiredReachGain (IZR (5 * k)) best))
        as (k_end & Hle & Hpast & Hend); [lia | lia | |].
      * apply upto_next_spacer. rewrite angle_loop_unfold.
        apply (upto_angles k 35 0 best Hk Hcond); [lia | exact Hinv].
      * exists k_end. split; [lia|]. split; assumption.
    + apply leb_false in Hcond. exists k. split; [lia|]. split; assumption.
Qed.

Lemma upto_search :
  exists k_end, maxSp < IZR (5 * k_end) /\
    upto k_end (-17)
      (search hta minLen maxLen maxSp pref requiredStackGain requiredReachGain
         (spacer_fuel maxSp)).
Proof.
  unfold search. change 0%Z with (5 * 0)%Z.
  destruct (upto_outer (spacer_fuel maxSp) 0 None) as (k_end & _ & Hpast & Hend).
  - lia.
  - unfold spacer_fuel. lia.
  - cbn [best_upto]. intros k' a' Hk' Ha' Hbef. unfold visited_before in Hbef. lia.
  - now exists k_end.
Qed.

End SearchOrderFacts.

(** On the non-fallback path the winner is a valid grid candidate, no
    valid grid candidate scores lower, and every valid candidate visited
    before it scores strictly higher. *)
Lemma best_is_first_minimum fitPosition newFrame options (b : Solution) :
  find_best (spacer_fuel (opt_maxSpacers options)) fitPosition newFrame options
    = Some b ->
  let hta := solver_hta newFrame in
  let gainS := handlebarStack fitPosition - stackMm newFrame in
  let gainR := handlebarReach fitPosition - reachMm newFrame in
  let valid :=
    grid_valid hta (opt_minStemLength options) (opt_maxStemLength options)
      gainS gainR in
  let err := grid_error hta (opt_preferredStemAngle options) gainS gainR in
  exists kb ab,
    grid_point (opt_maxSpacers options) kb ab /\ valid kb ab /\
    b = candidate_solution hta (opt_preferredStemAngle options) gainS gainR
          (IZR (5 * kb)) ab /\
    forall k a, grid_point (opt_maxSpacers options) k a -> valid k a ->
                err kb ab <= err k a /\
                (visited_before k a kb ab -> err kb ab < err k a).
Proof.
  intros Hbest hta gainS gainR valid err.
  destruct (upto_search hta (opt_minStemLength options) (opt_maxStemLength options)
              (opt_maxSpacers options) (opt_preferredStemAngle options)
              gainS gainR) as (k_end & Hpast & Hinv).
  unfold find_best in Hbest. fold hta gainS gainR in Hbest.
  rewrite Hbest in Hinv. cbn [best_upto] in Hinv.
  destruct Hinv as (kb & ab & Hkb & Hspb & Hab & _ & Hvb & Eb & Hmin).
  exists kb, ab. split; [now repeat split|]. split; [exact Hvb|].
  split; [exact Eb|].
  intros k a (Hk & Hsp & Ha) Hv. apply Hmin; try assumption.
  left. apply lt_IZR. apply Rmult_lt_reg_l with 5; [lra|].
  rewrite <- !mult_IZR. lra.
Qed.





(** ** The shape of the solver's result *)

(** X3: every non-fallback result is made of whole numbers: the stem angle
    is an integer from -17 to 17, the stem length, the stack delta and the
    reach delta are integers, and the spacer stack is a multiple of 5
    between 0 and [maxSpacers]. *)
Theorem non_fallback_result_is_whole fitPosition newFrame options :
  ~ no_candidate fitPosition newFrame options ->
  let r := calculateStemRequirements fitPosition newFrame options in
  (exists a : Z, stemAngle r = IZR a /\ (-17 <= a <= 17)%Z) /\
  (exists k : Z, spacerStack r = IZR (5 * k) /\ (0 <= k)%Z /\
                 spacerStack r <= with_default (maxSpacers options) 50) /\
  (exists len : Z, stemLength r = IZR len) /\
  (exists d : Z, stackDelta r = IZR d) /\
  (exists d : Z, reachDelta r = IZR d).
Proof.
  intros Hsome.
  destruct (not_fallback_has_best _ _ _ Hsome) as [b Hbest].
  cbv zeta. unfold calculateStemRequirements, calculateStemRequirements_fuel.
  rewrite Hbest.
  apply best_from_grid in Hbest as (k & a & (Hk & Hsp & Ha) & _ & ->).
  cbn [best_solution_result spacerStack stemAngle stemLength stackDelta reachDelta
       candidate_solution sol_spacers sol_stemAngle sol_stemLength].
  split; [now exists a|].
  split; [exists k; now repeat split|].
  unfold Math_round. repeat split; eexists; reflexivity.
Qed.

Lemma non_fallback_result_is_whole_witness :
  let r := calculateStemRequirements pinned_position (sample_frame (Some 73))
             pinned_options in
  exists a : Z, stemAngle r = IZR a /\ (-17 <= a <= 17)%Z.
Proof.
  destruct (non_fallback_result_is_whole pinned_position (sample_frame (Some 73))
              pinned_options pinned_has_candidate) as [Hangle _].
  exact Hangle.
Defined.

Lemma Math_round_within_10 (x : R) : Rabs x <= 10 -> Rabs (Math_round x) <= 10.
Proof.
  intros Hx. apply Rabs_le.
  assert (-10 <= x <= 10) as [Hlo Hhi]
      by (unfold Rabs in Hx; destruct (Rcase_abs x); lra).
  split; [apply (Math_round_ge_int x (-10)) | apply (Math_round_le_int x 10)];
    assumption.
Qed.

(** X4: a result flagged achievable is never the fallback, and both of its
    returned deltas are at most 10 mm in absolute value. *)
Theorem achievable_deltas_within_10 fitPosition newFrame options :
  let r := calculateStemRequirements fitPosition newFrame options in
  isAchievable r = true ->
  ~ no_candidate fitPosition newFrame options /\
  Rabs (stackDelta r) <= 10 /\ Rabs (reachDelta r) <= 10.
Proof.
  cbv zeta. unfold calculateStemRequirements, calculateStemRequirements_fuel.
  destruct (find_best _ _ _ _) as [b|] eqn:Hbest; [|discriminate].
  cbn [best_solution_result isAchievable stackDelta reachDelta].
  intros Hach. apply Bool.andb_true_iff in Hach as [Hs Hr].
  apply leb_true in Hs, Hr.
  split.
  - intros Hnone.
    rewrite (find_best_no_candidate _ _ _ _ Hnone) in Hbest. discriminate.
  - split; now apply Math_round_within_10.
Qed.

Lemma achievable_deltas_within_10_witness :
  let r := calculateStemRequirements pinned_position (sample_frame (Some 73))
             pinned_options in
  Rabs (stackDelta r) <= 10 /\ Rabs (reachDelta r) <= 10.
Proof.
  pose proof (achievable_deltas_within_10 pinned_position (sample_frame (Some 73))
                pinned_options) as H.
  cbv zeta in H.
  destruct pinned_result as (_ & _ & _ & _ & _ & Hach).
  destruct (H Hach) as (_ & Hs & Hr).
  split; assumption.
Defined.

(** ** Degenerate options *)

(** X5: with a negative [maxSpacers], or with [minStemLength] above
    [maxStemLength], the search finds nothing, whatever the fit and the
    frame: the result is the fallback, with a 100 mm stem and
    [spacerStack = maxSpacers] even where these lie outside the options'
    own bounds. *)
Theorem degenerate_options_fall_back fitPosition newFrame options :
  with_default (maxSpacers options) 50 < 0 \/
  with_default (maxStemLength options) 140
  < with_default (minStemLength options) 60 ->
  let r := calculateStemRequirements fitPosition newFrame options in
  no_candidate fitPosition newFrame options /\
  stemLength r = 100 /\
  spacerStack r = with_default (maxSpacers options) 50 /\
  stemAngle r = with_default (preferredStemAngle options) (-6) /\
  isAchievable r = false /\
  notes r = [note_not_achievable].
Proof.
  intros Hdeg.
  assert (no_candidate fitPosition newFrame options) as Hnone.
  { intros k a (Hk & Hsp & _) [_ Hrange].
    destruct Hdeg as [Hneg | Hinv].
    - assert (0 <= IZR (5 * k)) by (apply IZR_le; lia).
      unfold opt_maxSpacers in Hsp. lra.
    - unfold opt_minStemLength, opt_maxStemLength in Hrange. lra. }
  split; [exact Hnone|].
  cbv zeta. unfold calculateStemRequirements, calculateStemRequirements_fuel.
  rewrite find_best_no_candidate by exact Hnone.
  repeat split.
Qed.

Lemma degenerate_options_fall_back_witness :
  stemLength (calculateStemRequirements zero_gap_position (sample_frame (Some 73))
                inverted_options) = 100 /\
  spacerStack (calculateStemRequirements zero_gap_position (sample_frame (Some 73))
                 negative_spacer_options) = -5.
Proof.
  split.
  - apply (degenerate_options_fall_back zero_gap_position (sample_frame (Some 73))
             inverted_options).
    right. simpl. lra.
  - apply (degenerate_options_fall_back zero_gap_position (sample_frame (Some 73))
             negative_spacer_options).
    left. simpl. lra.
Defined.

(** ** The nearest catalog stem length *)

(** The [reduce] over an ascending list: the accumulator is always a
    nearest element of what has been read, the lowest of equally near
    ones. *)
Lemma nearest_fold (len : R) (l : list R) :
  forall (p : list R) (r : R),
    In r p ->
    (forall c, In c p ->
       Rabs (r - len) <= Rabs (c - len) /\
       (Rabs (c - len) = Rabs (r - len) -> r <= c)) ->
    (forall x c, In x p -> In c l -> x < c) ->
    ForallOrdPairs Rlt l ->
    let r' :=
      fold_left (fun prev curr =>
                   if ltb (Rabs (curr - len)) (Rabs (prev - len)) then curr else prev)
                l r in
    In r' (p ++ l) /\
    forall c, In c (p ++ l) ->
      Rabs (r' - len) <= Rabs (c - len) /\
      (Rabs (c - len) = Rabs (r' - len) -> r' <= c).
Proof.
  induction l as [|c0 l IH]; intros p r Hin Hmin Hlow Hsorted.
  - cbn [fold_left]. rewrite app_nil_r. split; assumption.
  - cbn [fold_left]. cbv zeta.
    replace (p ++ c0 :: l) with ((p ++ [c0]) ++ l)
      by (rewrite <- app_assoc; reflexivity).
    inversion Hsorted as [|? ? Hall Hsorted']; subst.
    rewrite Forall_forall in Hall.
    apply IH; try assumption.
    + destruct (ltb _ _); apply in_or_app; [right; now left | now left].
    + intros c Hc. apply in_app_or in Hc as [Hc | [<- | []]].
      * destruct (Hmin c Hc) as [Hle Htie].
        destruct (ltb _ _) eqn:Hnear; [|now split].
        apply ltb_true in Hnear. split; lra.
      * destruct (ltb _ _) eqn:Hnear.
        -- split; lra.
        -- apply ltb_false in Hnear. split; [exact Hnear|].
           intros _. left. apply Hlow; [exact Hin | now left].
    + intros x c Hx Hc. apply in_app_or in Hx as [Hx | [<- | []]].
      * apply Hlow; [exact Hx | now right].
      * now apply Hall.
Qed.

Lemma commonStemLengths_ascending : ForallOrdPairs Rlt commonStemLengths.
Proof.
  unfold commonStemLengths.
  repeat (apply FOP_cons; [repeat (apply Forall_cons; [lra|]); apply Forall_nil|]).
  apply FOP_nil.
Qed.

Lemma nearest_common_min (len : R) :
  In (nearest_common len) commonStemLengths /\
  forall c, In c commonStemLengths ->
    Rabs (nearest_common len - len) <= Rabs (c - len) /\
    (Rabs (c - len) = Rabs (nearest_common len - len) -> nearest_common len <= c).
Proof.
  unfold nearest_common.
  pose proof commonStemLengths_ascending as Hsorted.
  unfold commonStemLengths in *. cbn [hd tl].
  inversion Hsorted as [|? ? Hall Hsorted']; subst.
  rewrite Forall_forall in Hall.
  apply (nearest_fold len _ [70] 70).
  - now left.
  - intros c [<- | []]. split; lra.
  - intros x c [<- | []] Hc. now apply Hall.
  - exact Hsorted'.
Qed.

Lemma nearest_common_fixes_catalog (len : R) :
  nearest_common len = len <-> In len commonStemLengths.
Proof.
  destruct (nearest_common_min len) as [Hin Hmin]. split.
  - intros <-. exact Hin.
  - intros Hlen. destruct (Hmin len Hlen) as [Hle _].
    replace (len - len) with 0 in Hle by lra. rewrite Rabs_R0 in Hle.
    pose proof (Rabs_pos (nearest_common len - len)) as Hpos.
    assert (Rabs (nearest_common len - len) = 0) as Hzero by lra.
    unfold Rabs in Hzero. destruct (Rcase_abs _); lra.
Qed.

(** X6: [nearestCommon] is a catalog length, no catalog length is nearer to
    the stem length, of two equally near lengths the shorter one is taken,
    and a catalog length is its own nearest (so 75 gives 70, and 80 gives
    80). *)
Theorem nearest_common_is_nearest (len : R) :
  In (nearest_common len) commonStemLengths /\
  (forall c, In c commonStemLengths ->
     Rabs (nearest_common len - len) <= Rabs (c - len) /\
     (Rabs (c - len) = Rabs (nearest_common len - len) ->
      nearest_common len <= c)) /\
  (In len commonStemLengths -> nearest_common len = len) /\
  (forall c, In c commonStemLengths -> len = c + 5 -> nearest_common len = c).
Proof.
  destruct (nearest_common_min len) as [Hin Hmin].
  split; [exact Hin|]. split; [exact Hmin|]. split.
  - apply nearest_common_fixes_catalog.
  - intros c Hc ->.
    destruct (Hmin c Hc) as [Hle Htie].
    replace (c - (c + 5)) with (-5) in * by lra.
    assert (Rabs (-5) = 5) as E5
        by (unfold Rabs; destruct (Rcase_abs (-5)); lra).
    rewrite E5 in *.
    set (n := nearest_common (c + 5)) in *.
    (* the catalog lengths are 10 apart: within 5 of c + 5 there are only
       c and c + 10 *)
    assert (n = c \/ n = c + 10) as [-> | E].
    { unfold commonStemLengths in Hin, Hc. cbn [In] in Hin, Hc.
      unfold Rabs in Hle. destruct (Rcase_abs (n - (c + 5)));
        intuition lra. }
    + reflexivity.
    + assert (Rabs (n - (c + 5)) = 5) as En
          by (rewrite E; replace (c + 10 - (c + 5)) with 5 by lra;
              apply Rabs_right; lra).
      symmetry in En. specialize (Htie En). lra.
Qed.

(** X7: the result carries the note "Nearest common stem length" exactly
    when its stem length is not one of the catalog lengths 70, 80, ...,
    140, and the note then names the nearest of them. *)
Theorem nearest_note_iff_off_catalog fitPosition newFrame options :
  let r := calculateStemRequirements fitPosition newFrame options in
  (In (stemLength r) commonStemLengths ->
   forall c, ~ In (note_nearest c) (notes r)) /\
  (~ In (stemLength r) commonStemLengths ->
   In (note_nearest (nearest_common (stemLength r))) (notes r)) /\
  (forall c, In (note_nearest c) (notes r) ->
             c = nearest_common (stemLength r)).
Proof.
  cbv zeta. unfold calculateStemRequirements, calculateStemRequirements_fuel.
  destruct (find_best _ _ _ _) as [b|].
  - unfold best_solution_result. cbn [notes stemLength].
    set (len := sol_stemLength b).
    pose proof (nearest_common_fixes_catalog len) as Hfix.
    assert (forall c (pre : list message),
               (forall m, In m pre -> m <> note_nearest c) ->
               In (note_nearest c)
                  (if neqb (nearest_common len) len
                   then pre ++ [note_nearest (nearest_common len)] else pre) ->
               nearest_common len <> len /\ c = nearest_common len) as Hlast.
    { intros c pre Hpre Hin. unfold neqb in Hin.
      destruct (Req_dec_T (nearest_common len) len) as [E | Hne].
      - exfalso. now apply (Hpre _ Hin).
      - split; [exact Hne|].
        apply in_app_or in Hin as [Hin | [Hin | []]].
        + exfalso. now apply (Hpre _ Hin).
        + now injection Hin as ->. }
    assert (forall c m,
               In m ((if gtb (Rabs (best_stackDelta fitPosition newFrame b)) 5
                      then [] ++ [note_stack (best_stackDelta fitPosition newFrame b)]
                      else [])
                     ++ []) -> m <> note_nearest c) as Hstack.
    { intros c m Hin.
      destruct (gtb (Rabs (best_stackDelta fitPosition newFrame b)) 5);
        cbn in Hin; [destruct Hin as [<- | []]; discriminate | destruct Hin]. }
    set (n1 := if gtb (Rabs (best_stackDelta fitPosition newFrame b)) 5
               then [] ++ [note_stack (best_stackDelta fitPosition newFrame b)]
               else []) in *.
    set (n2 := if gtb (Rabs (best_reachDelta fitPosition newFrame b)) 5
               then n1 ++ [note_reach (best_reachDelta fitPosition newFrame b)]
               else n1).
    assert (forall c m, In m n2 -> m <> note_nearest c) as Hpre.
    { intros c m Hin. unfold n2 in Hin.
      destruct (gtb (Rabs (best_reachDelta fitPosition newFrame b)) 5).
      - apply in_app_or in Hin as [Hin | [<- | []]]; [|discriminate].
        apply (Hstack c). now rewrite app_nil_r.
      - apply (Hstack c). now rewrite app_nil_r. }
    split; [|split].
    + intros Hcat c Hin.
      destruct (Hlast c n2 (Hpre c) Hin) as [Hne _].
      apply Hne. now apply Hfix.
    + intros Hoff.
      replace (neqb (nearest_common len) len) with true.
      * apply in_or_app. right. now left.
      * unfold neqb. destruct (Req_dec_T _ _) as [E | _]; [|reflexivity].
        exfalso. apply Hoff. now apply Hfix.
    + intros c Hin. now destruct (Hlast c n2 (Hpre c) Hin).
  - cbn [fallback_solution notes stemLength]. split; [|split].
    + intros _ c [H | []]. discriminate H.
    + intros Hoff. exfalso. apply Hoff. unfold commonStemLengths.
      cbn. tauto.
    + intros c [H | []]. discriminate H.
Qed.

Lemma nearest_note_iff_off_catalog_witness :
  In (note_nearest (nearest_common 60))
     (notes (calculateStemRequirements pinned_position (sample_frame (Some 73))
               pinned_options)).
Proof.
  destruct (nearest_note_iff_off_catalog pinned_position (sample_frame (Some 73))
              pinned_options) as (_ & Hoff & _).
  destruct pinned_result as (_ & Hlen & _).
  rewrite Hlen in Hoff. apply Hoff.
  unfold commonStemLengths. cbn [In].
  intros H. repeat (destruct H as [H | H]; [lra|]). exact H.
Defined.

(** ** More on the setup calculator *)

Lemma setup_saddle_fields fitData newFrame :
  let r := calculateBikeSetup fitData newFrame in
  BikeSetupCalculation.saddleHeight r = saddleHeight (fitPosition fitData) /\
  BikeSetupCalculation.saddleSetback r = saddleSetback (fitPosition fitData) /\
  BikeSetupCalculation.saddleAngle r
  = js_or (Some (saddleAngle (fitPosition fitData))) 0.
Proof.
  cbv zeta. unfold calculateBikeSetup.
  destruct (seatpost fitData newFrame) as [ext ws].
  destruct (seatpost_offset fitData newFrame) as [off ns].
  repeat split.
Qed.

(** X8: the saddle position does not depend on the frame: for any two
    frames the setups carry the same saddle height, setback and angle,
    namely those of the fit (the [|| 0] on the angle leaves every number
    as it is). *)
Theorem saddle_position_is_frame_independent fitData frame1 frame2 :
  let r1 := calculateBikeSetup fitData frame1 in
  let r2 := calculateBikeSetup fitData frame2 in
  BikeSetupCalculation.saddleHeight r1 = BikeSetupCalculation.saddleHeight r2 /\
  BikeSetupCalculation.saddleSetback r1 = BikeSetupCalculation.saddleSetback r2 /\
  BikeSetupCalculation.saddleAngle r1 = BikeSetupCalculation.saddleAngle r2 /\
  BikeSetupCalculation.saddleHeight r1 = saddleHeight (fitPosition fitData) /\
  BikeSetupCalculation.saddleSetback r1 = saddleSetback (fitPosition fitData) /\
  BikeSetupCalculation.saddleAngle r1 = saddleAngle (fitPosition fitData).
Proof.
  cbv zeta.
  destruct (setup_saddle_fields fitData frame1) as (-> & -> & ->).
  destruct (setup_saddle_fields fitData frame2) as (-> & -> & ->).
  repeat split.
  unfold js_or. destruct (Req_dec_T _ 0) as [E | _]; [now rewrite E | reflexivity].
Qed.

Lemma tan_one_degree_pos : 0 < tan (radians 1).
Proof. pose proof tan_one_degree. lra. Qed.

(** X9: the recommended seatpost offset is 0, 20 or 25 mm, and for a
    non-negative saddle height a 20 or 25 mm post is only recommended when
    the fit's effective seat-tube angle exceeds the frame's (73 if the
    frame gives none) by more than half a degree. *)
Theorem seatpost_offset_values fitData newFrame :
  let r := calculateBikeSetup fitData newFrame in
  let off := BikeSetupCalculation.seatpostOffsetNeeded r in
  let effectiveSTA := effectiveSeatTubeAngle (fitPosition fitData) in
  let frameSTA := js_or (seatTubeAngle newFrame) 73 in
  (off = 0 \/ off = 20 \/ off = 25) /\
  (0 <= saddleHeight (fitPosition fitData) ->
   effectiveSTA <= frameSTA + 1 / 2 -> off = 0) /\
  (off <> 0 ->
   (effectiveSTA - frameSTA)
   * (saddleHeight (fitPosition fitData) * tan (radians 1)) > 8).
Proof.
  cbv zeta.
  destruct (setup_fields fitData newFrame) as (_ & _ & _ & -> & _).
  unfold seatpost_offset, frame_sta.
  change ((1 * PI) / 180) with (radians 1).
  pose proof tan_one_degree_pos as Htan.
  set (d := effectiveSeatTubeAngle (fitPosition fitData)
            - js_or (seatTubeAngle newFrame) 73).
  set (h := saddleHeight (fitPosition fitData)).
  assert (0 <= h -> d <= 1 / 2 -> Rabs d > 1 / 2 ->
          d * (h * tan (radians 1)) <= 0) as Hslack.
  { intros Hh Hd' Habs. unfold Rabs in Habs. destruct (Rcase_abs d); [|lra].
    assert (0 <= h * tan (radians 1)) by nra. nra. }
  destruct (gtb (Rabs d) (1 / 2)) eqn:Hd.
  - apply gtb_true in Hd.
    destruct (gtb (d * (h * tan (radians 1))) 15) eqn:H15.
    { apply gtb_true in H15. cbn [fst]. split; [lra|]. split.
      - intros Hh Hle. assert (d <= 1 / 2) as Hd' by (unfold d; lra).
        specialize (Hslack Hh Hd' Hd). lra.
      - intros _. lra. }
    destruct (gtb (d * (h * tan (radians 1))) 8) eqn:H8.
    { apply gtb_true in H8. cbn [fst]. split; [lra|]. split.
      - intros Hh Hle. assert (d <= 1 / 2) as Hd' by (unfold d; lra).
        specialize (Hslack Hh Hd' Hd). lra.
      - intros _. lra. }
    destruct (ltb (d * (h * tan (radians 1))) (-15)); cbn [fst];
      (split; [lra|]); (split; [reflexivity | intros Hne; lra]).
  - cbn [fst]. split; [lra|]. split; [reflexivity | intros Hne; lra].
Qed.

Lemma seatpost_offset_values_witness :
  BikeSetupCalculation.seatpostOffsetNeeded
    (calculateBikeSetup (sample_fit 750 (-60) 73) (seat_frame (Some 74) None)) = 0.
Proof.
  destruct (seatpost_offset_values (sample_fit 750 (-60) 73)
              (seat_frame (Some 74) None)) as (_ & Hzero & _).
  apply Hzero.
  - simpl. lra.
  - cbn [sample_fit fitPosition effectiveSeatTubeAngle seat_frame seatTubeAngle].
    rewrite js_or_nonzero; lra.
Defined.

(** X10: a setup carries at most one warning (the low and the high
    seatpost warnings exclude each other) and at most five notes: up to
    three from the solver, one from the offset recommendation and the
    forward-saddle note. *)
Theorem setup_message_counts fitData newFrame :
  let r := calculateBikeSetup fitData newFrame in
  (List.length (BikeSetupCalculation.warnings r) <= 1)%nat /\
  (List.length (notes (BikeSetupCalculation.stem r)) <= 3)%nat /\
  (List.length (BikeSetupCalculation.notes r)
   <= List.length (notes (BikeSetupCalculation.stem r)) + 2)%nat.
Proof.
  cbv zeta.
  destruct (setup_fields fitData newFrame) as (-> & _ & -> & _ & _ & ->).
  split; [|split].
  - unfold seatpost. destruct (truthy _) as [len|]; [|cbn; lia].
    set (e := js_round _).
    destruct (js_ltb e 50) eqn:Hlow; destruct (js_gtb e 200) eqn:Hhigh;
      cbn [snd app List.length]; try lia.
    exfalso. exact (js_low_high_exclusive e Hlow Hhigh).
  - unfold calculateStemRequirements, calculateStemRequirements_fuel.
    destruct (find_best _ _ _ _) as [b|]; [|cbn; lia].
    unfold best_solution_result. cbn [notes].
    destruct (gtb (Rabs (best_stackDelta _ _ _)) 5);
      destruct (gtb (Rabs (best_reachDelta _ _ _)) 5);
      destruct (neqb _ _); cbn [app List.length]; lia.
  - rewrite !length_app.
    assert (List.length (snd (seatpost_offset fitData newFrame)) <= 1)%nat.
    { unfold seatpost_offset.
      destruct (gtb _ (1 / 2)); [|cbn; lia].
      destruct (gtb _ 15); [cbn; lia|].
      destruct (gtb _ 8); [cbn; lia|].
      destruct (ltb _ (-15)); cbn; lia. }
    destruct (ltb _ 50); cbn [List.length]; lia.
Qed.

(** ** The wizard *)

Lemma truthy_none (x : option R) : truthy x = None <-> x = None \/ x = Some 0.
Proof.
  unfold truthy. destruct x as [v|]; [|tauto].
  destruct (Req_dec_T v 0) as [-> | Hne].
  - tauto.
  - split; [discriminate|]. intros [H | H]; [discriminate|]. congruence.
Qed.

Lemma truthy_some (x : option R) (v : R) :
  truthy x = Some v <-> x = Some v /\ v <> 0.
Proof.
  unfold truthy. destruct x as [w|].
  - destruct (Req_dec_T w 0) as [-> | Hne].
    + split; [discriminate|]. intros [[= <-] H]. congruence.
    + split; [intros [= <-]; now split | intros [[= <-] _]; reflexivity].
  - split; [discriminate | intros [H _]; discriminate].
Qed.

(** X11: the wizard computes a setup exactly when it has fit data and a
    stack, a reach and a head tube angle that are present and not 0; the
    setup is then [calculateBikeSetup] on that frame, solved with the
    frame's own head tube angle (the 73 degree default is never used on
    this path). *)
Theorem wizard_setup_guard (fitData : option RetulFitData) (geometry : WizardGeometry) :
  let missing := fun x : option R => x = None \/ x = Some 0 in
  (wizard_setup fitData geometry = None <->
   fitData = None \/ missing (wz_stackMm geometry) \/
   missing (wz_reachMm geometry) \/ missing (wz_headTubeAngle geometry)) /\
  (forall r, wizard_setup fitData geometry = Some r ->
     exists fd stack reach hta,
       fitData = Some fd /\
       wz_stackMm geometry = Some stack /\ stack <> 0 /\
       wz_reachMm geometry = Some reach /\ reach <> 0 /\
       wz_headTubeAngle geometry = Some hta /\ hta <> 0 /\
       let frame :=
         {| stackMm := stack; reachMm := reach; headTubeAngle := Some hta;
            headTubeLengthMm := wz_headTubeLengthMm geometry;
            seatTubeAngle := wz_seatTubeAngle geometry;
            seatTubeLengthMm := wz_seatTubeLengthMm geometry;
            bbDropMm := wz_bbDropMm geometry |} in
       r = calculateBikeSetup fd frame /\ solver_hta frame = hta).
Proof.
  cbv zeta. unfold wizard_setup.
  destruct fitData as [fd|].
  - destruct (truthy (wz_stackMm geometry)) as [stack|] eqn:Hs.
    + destruct (truthy (wz_reachMm geometry)) as [reach|] eqn:Hr.
      * destruct (truthy (wz_headTubeAngle geometry)) as [hta|] eqn:Hh.
        -- apply truthy_some in Hs as [Hs Hs0], Hr as [Hr Hr0], Hh as [Hh Hh0].
           split.
           ++ split; [discriminate|].
              intros [H | [[H | H] | [[H | H] | [H | H]]]]; congruence.
           ++ intros r [= <-]. exists fd, stack, reach, hta.
              repeat split; try assumption.
              unfold solver_hta. cbn [headTubeAngle]. now apply js_or_nonzero.
        -- apply truthy_none in Hh. split; [tauto | discriminate].
      * apply truthy_none in Hr. split; [tauto | discriminate].
    + apply truthy_none in Hs. split; [tauto | discriminate].
  - split; [tauto | discriminate].
Qed.

Lemma wizard_setup_guard_witness :
  wizard_setup (Some (sample_fit 750 (-60) 76)) (sample_geometry (Some 0)) = None /\
  exists r,
    wizard_setup (Some (sample_fit 750 (-60) 76)) (sample_geometry (Some 72))
    = Some r.
Proof.
  split.
  - apply (wizard_setup_guard (Some (sample_fit 750 (-60) 76))
             (sample_geometry (Some 0))).
    right. right. right. right. reflexivity.
  - destruct (wizard_setup (Some (sample_fit 750 (-60) 76))
                (sample_geometry (Some 72))) as [r|] eqn:Hw; [now exists r|].
    exfalso.
    apply (wizard_setup_guard (Some (sample_fit 750 (-60) 76))
             (sample_geometry (Some 72))) in Hw.
    cbn [sample_geometry wz_stackMm wz_reachMm wz_headTubeAngle] in Hw.
    destruct Hw as [H | [[H | H] | [[H | H] | [H | H]]]];
      try discriminate; injection H as H; lra.
Defined.

(** X12: when the solver flags its result achievable, neither delta row of
    the wizard is highlighted amber. *)
Theorem achievable_rows_not_amber fitPosition newFrame options :
  let r := calculateStemRequirements fitPosition newFrame options in
  isAchievable r = true ->
  delta_row_class (stackDelta r) <> Some "text-amber-600"%string /\
  delta_row_class (reachDelta r) <> Some "text-amber-600"%string.
Proof.
  cbv zeta. unfold calculateStemRequirements, calculateStemRequirements_fuel.
  destruct (find_best _ _ _ _) as [b|]; [|discriminate].
  cbn [best_solution_result isAchievable stackDelta reachDelta].
  intros Hach. apply Bool.andb_true_iff in Hach as [Hs Hr].
  apply leb_true in Hs, Hr.
  apply Math_round_within_10 in Hs, Hr.
  unfold delta_row_class.
  split; destruct (neqb _ 0); try discriminate;
    match goal with
    | |- context [gtb (Rabs ?d) 10] =>
        replace (gtb (Rabs d) 10) with false
          by (symmetry; apply gtb_false; assumption)
    end; discriminate.
Qed.

Lemma achievable_rows_not_amber_witness :
  delta_row_class
    (reachDelta (calculateStemRequirements pinned_position (sample_frame (Some 73))
                   pinned_options))
  <> Some "text-amber-600"%string.
Proof.
  apply (achievable_rows_not_amber pinned_position (sample_frame (Some 73))
           pinned_options).
  apply pinned_result.
Defined.

Lemma solver_notes_not_offset0 fitPosition newFrame options f e :
  ~ In (note_offset0 f e) (notes (calculateStemRequirements fitPosition newFrame options)).
Proof.
  unfold calculateStemRequirements, calculateStemRequirements_fuel.
  destruct (find_best _ _ _ _) as [b|].
  - unfold best_solution_result. cbn [notes].
    destruct (gtb (Rabs (best_stackDelta _ _ _)) 5);
      destruct (gtb (Rabs (best_reachDelta _ _ _)) 5);
      destruct (neqb _ _); cbn [app In];
      intros H; repeat (destruct H as [H | H]; [discriminate H|]); exact H.
  - cbn. intros [H | []]. discriminate H.
Qed.

Lemma offset_block_values fitData newFrame :
  let off := fst (seatpost_offset fitData newFrame) in
  off = 0 \/ off = 20 \/ off = 25.
Proof.
  cbv zeta. unfold seatpost_offset.
  destruct (gtb _ (1 / 2)); [|now left].
  destruct (gtb _ 15); [now right; right|].
  destruct (gtb _ 8); [now right; left|].
  destruct (ltb _ (-15)); now left.
Qed.

Lemma sample_offset_25 :
  fst (seatpost_offset (sample_fit 750 (-60) 76) (seat_frame (Some 73) None)) = 25.
Proof.
  unfold seatpost_offset, frame_sta.
  cbn [sample_fit seat_frame seatTubeAngle fitPosition effectiveSeatTubeAngle
       saddleHeight].
  rewrite js_or_nonzero by lra.
  change ((1 * PI) / 180) with (radians 1).
  pose proof tan_one_degree as Htan.
  replace (gtb (Rabs (76 - 73)) (1 / 2)) with true
    by (symmetry; apply gtb_true; rewrite Rabs_right; lra).
  replace (gtb ((76 - 73) * (750 * tan (radians 1))) 15) with true
    by (symmetry; apply gtb_true; nra).
  reflexivity.
Qed.

(** X13: the wizard shows its "Seatpost Offset" row exactly for the 20 and
    25 mm recommendations; when the setup carries the note recommending a
    0 mm offset post, no row is shown. *)
Theorem offset_row_iff_setback_post fitData newFrame :
  let r := calculateBikeSetup fitData newFrame in
  let off := BikeSetupCalculation.seatpostOffsetNeeded r in
  (offset_row_shown r = true <-> off = 20 \/ off = 25) /\
  (forall f e, In (note_offset0 f e) (BikeSetupCalculation.notes r) ->
               offset_row_shown r = false).
Proof.
  cbv zeta. unfold offset_row_shown.
  pose proof (offset_block_values fitData newFrame) as Hvals.
  cbv zeta in Hvals.
  destruct (setup_fields fitData newFrame) as (_ & _ & _ & Hoff & _ & Hnotes).
  rewrite Hoff.
  split.
  - rewrite gtb_true. destruct Hvals as [-> | [-> | ->]]; split; intros H;
      try lra; try (destruct H; lra); tauto.
  - intros f e Hin. apply gtb_false.
    rewrite Hnotes in Hin.
    apply in_app_or in Hin as [Hin | Hin];
      [now apply solver_notes_not_offset0 in Hin|].
    apply in_app_or in Hin as [Hin | Hin].
    + revert Hin. unfold seatpost_offset.
      destruct (gtb _ (1 / 2)); [|intros []].
      destruct (gtb _ 15); [intros [H | []]; discriminate H|].
      destruct (gtb _ 8); [intros [H | []]; discriminate H|].
      destruct (ltb _ (-15)); cbn [fst snd]; intros _; lra.
    + destruct (ltb _ 50); [|destruct Hin].
      destruct Hin as [H | []]. discriminate H.
Qed.

Lemma offset_row_iff_setback_post_witness :
  offset_row_shown
    (calculateBikeSetup (sample_fit 750 (-60) 76) (seat_frame (Some 73) None))
  = true.
Proof.
  apply (offset_row_iff_setback_post (sample_fit 750 (-60) 76)
           (seat_frame (Some 73) None)).
  right.
  destruct (setup_fields (sample_fit 750 (-60) 76) (seat_frame (Some 73) None))
    as (_ & _ & _ & -> & _).
  exact sample_offset_25.
Defined.

Lemma nearest_common_is_nearest_witness : nearest_common 75 = 70.
Proof.
  destruct (nearest_common_is_nearest 75) as (_ & _ & _ & Hhalf).
  apply (Hhalf 70); [|lra].
  unfold commonStemLengths. now left.
Defined.

(** ** The arrays a setup returns *)

Lemma firstn_length_app (h l : Store.store) : firstn (List.length h) (h ++ l) = h.
Proof.
  induction h as [|arr h IH]; [reflexivity|].
  cbn [List.length firstn app]. now rewrite IH.
Qed.

(** X14: the [notes] array of a setup is a fresh copy.  Pushing a message
    onto it changes neither the solver's [stem.notes] nor the warnings nor
    any array allocated before the call, and pushing onto [stem.notes]
    does not change the setup's [notes]. *)
Theorem returned_notes_are_a_copy fitData newFrame (h : Store.store) (m : message) :
  let run := calculateBikeSetup_st fitData newFrame h in
  let r := fst run in
  let pure := calculateBikeSetup fitData newFrame in
  let h_notes := snd (Store.push (ref_setup_notes r) m (snd run)) in
  let h_stem := snd (Store.push (ref_notes (ref_stem r)) m (snd run)) in
  BikeSetupCalculation.notes (load_setup h_notes r)
  = BikeSetupCalculation.notes pure ++ [m] /\
  notes (BikeSetupCalculation.stem (load_setup h_notes r))
  = notes (BikeSetupCalculation.stem pure) /\
  BikeSetupCalculation.warnings (load_setup h_notes r)
  = BikeSetupCalculation.warnings pure /\
  firstn (List.length h) h_notes = h /\
  notes (BikeSetupCalculation.stem (load_setup h_stem r))
  = notes (BikeSetupCalculation.stem pure) ++ [m] /\
  BikeSetupCalculation.notes (load_setup h_stem r)
  = BikeSetupCalculation.notes pure.
Proof.
  cbv zeta. rewrite calculateBikeSetup_st_run. cbn [fst snd].
  unfold setup_ref_of, stem_ref_of. cbn [ref_setup_notes ref_stem ref_notes].
  rewrite !push_app. cbn [snd Store.update].
  unfold load_setup, load_stem.
  cbn [ref_setup_notes ref_stem ref_notes ref_warnings
       BikeSetupCalculation.notes BikeSetupCalculation.stem
       BikeSetupCalculation.warnings notes].
  rewrite !app_nth2_plus. cbn [nth].
  rewrite firstn_length_app. repeat split.
Qed.

(** ** The fit diagram *)

Lemma in_range_or_cases (x : option R) (lo hi fallback : R) :
  Diagram.in_range_or x lo hi fallback = fallback \/
  (exists v, x = Some v /\ lo <= v <= hi /\
             Diagram.in_range_or x lo hi fallback = v).
Proof.
  unfold Diagram.in_range_or.
  destruct (truthy x) as [v|] eqn:Hx; [|now left].
  apply truthy_some in Hx as [-> Hv].
  destruct (ltb v lo) eqn:Hlo; [now left|].
  destruct (gtb v hi) eqn:Hhi; [now left|].
  apply ltb_false in Hlo. apply gtb_false in Hhi.
  right. exists v. cbn. repeat split; assumption.
Qed.

Lemma in_range_or_bounds (x : option R) (lo hi fallback : R) :
  lo <= fallback <= hi -> lo <= Diagram.in_range_or x lo hi fallback <= hi.
Proof.
  intros Hfb.
  destruct (in_range_or_cases x lo hi fallback) as [-> | (v & _ & Hv & ->)];
    assumption.
Qed.

Lemma validateGeometry_chainstay (geometry : Diagram.BikeGeometryData) :
  350 <= Diagram.chainstay (Diagram.validateGeometry geometry) <= 500 /\
  50 <= Diagram.bbDrop (Diagram.validateGeometry geometry) <= 100.
Proof.
  unfold Diagram.validateGeometry. cbn [Diagram.chainstay Diagram.bbDrop].
  split; apply in_range_or_bounds; lra.
Qed.

(** X15: whatever geometry it is given, [validateGeometry] returns a
    chainstay within [350, 500], a BB drop within [50, 100] (so always
    shorter than the chainstay), a fork rake within [30, 70], a head tube
    of at least 80, and non-zero seat and head tube angles; stack and
    reach pass through unchanged. *)
Theorem validateGeometry_ranges (geometry : Diagram.BikeGeometryData) :
  let v := Diagram.validateGeometry geometry in
  350 <= Diagram.chainstay v <= 500 /\
  50 <= Diagram.bbDrop v <= 100 /\
  Diagram.bbDrop v < Diagram.chainstay v /\
  30 <= Diagram.forkRake v <= 70 /\
  80 <= Diagram.headTubeLength v /\
  Diagram.geo_seatTubeAngle v <> 0 /\
  Diagram.geo_headTubeAngle v <> 0 /\
  Diagram.stack v = Diagram.stackMm geometry /\
  Diagram.reach v = Diagram.reachMm geometry.
Proof.
  cbv zeta. unfold Diagram.validateGeometry.
  cbn [Diagram.chainstay Diagram.bbDrop Diagram.forkRake Diagram.headTubeLength
       Diagram.geo_seatTubeAngle Diagram.geo_headTubeAngle Diagram.stack
       Diagram.reach].
  assert (forall a, js_or (Some a) 73 <> 0) as Hangle.
  { intros a. unfold js_or. destruct (Req_dec_T a 0); lra. }
  match goal with
  | |- ?lo <= Diagram.in_range_or ?c 350 500 420 <= ?hi /\ _ =>
      pose proof (in_range_or_bounds c 350 500 420 ltac:(lra)) as Hchain
  end.
  pose proof (in_range_or_bounds (Diagram.bbDropMm geometry) 50 100 70 ltac:(lra))
    as Hdrop.
  pose proof (in_range_or_bounds (Diagram.forkRakeMm geometry) 30 70 47 ltac:(lra))
    as Hrake.
  split; [exact Hchain|]. split; [exact Hdrop|]. split; [lra|].
  split; [exact Hrake|]. split.
  - match goal with
    | |- 80 <= Diagram.in_range_or ?x 80 300 ?fb =>
        destruct (in_range_or_cases x 80 300 fb) as [-> | (v & _ & Hv & ->)]
    end; [|lra].
    pose proof (Rmax_l 100 (Diagram.stackMm geometry * (25 / 100))). lra.
  - repeat split; apply Hangle.
Qed.

(** X16: a seat tube length given in centimetres (35 to 70) is read as
    ten times that many millimetres, one between 350 and 700 is kept, and
    any other value, or none, is replaced by 0.92 times the stack.  In
    particular a length in metres (below 10) is never multiplied by 1000:
    it is replaced by the estimate. *)
Theorem seat_tube_units (geometry : Diagram.BikeGeometryData) :
  let v := Diagram.validateGeometry geometry in
  let estimate := Diagram.stackMm geometry * (92 / 100) in
  (forall len, Diagram.seatTubeLengthMm geometry = Some len ->
     (35 <= len <= 70 -> Diagram.seatTubeLength v = len * 10) /\
     (350 <= len <= 700 -> Diagram.seatTubeLength v = len) /\
     (len < 35 \/ 70 < len < 350 \/ 700 < len ->
      Diagram.seatTubeLength v = estimate)) /\
  (Diagram.seatTubeLengthMm geometry = None ->
   Diagram.seatTubeLength v = estimate).
Proof.
  cbv zeta. unfold Diagram.validateGeometry. cbn [Diagram.seatTubeLength].
  split.
  - intros len ->.
    unfold Diagram.and_lt, Diagram.times, Diagram.in_range_or, truthy.
    destruct (Req_dec_T len 0) as [-> | Hnz].
    { (* a length of 0 counts as absent *)
      destruct (Req_dec_T 0 0) as [_ | Hne]; [|congruence].
      repeat split; intros; try lra; reflexivity. }
    destruct (ltb len 100) eqn:H100.
    + apply ltb_true in H100.
      destruct (Req_dec_T (len * 10) 0) as [E | _]; [lra|].
      destruct (ltb (len * 10) 350) eqn:Hlo;
        [apply ltb_true in Hlo | apply ltb_false in Hlo];
        (destruct (gtb (len * 10) 700) eqn:Hhi;
         [apply gtb_true in Hhi | apply gtb_false in Hhi]);
        cbn [orb]; repeat split; intros; try lra; reflexivity.
    + apply ltb_false in H100.
      replace (ltb len 10) with false by (symmetry; apply ltb_false; lra).
      destruct (Req_dec_T len 0) as [E | _]; [lra|].
      destruct (ltb len 350) eqn:Hlo;
        [apply ltb_true in Hlo | apply ltb_false in Hlo];
        (destruct (gtb len 700) eqn:Hhi;
         [apply gtb_true in Hhi | apply gtb_false in Hhi]);
        cbn [orb]; repeat split; intros; try lra; reflexivity.
  - intros ->. reflexivity.
Qed.

Lemma seat_tube_units_witness :
  Diagram.seatTubeLength
    (Diagram.validateGeometry (sample_diagram_geometry (Some 52))) = 520 /\
  Diagram.seatTubeLength
    (Diagram.validateGeometry (sample_diagram_geometry (Some (52 / 100))))
  = 560 * (92 / 100).
Proof.
  split.
  - destruct (seat_tube_units (sample_diagram_geometry (Some 52))) as [Hgiven _].
    destruct (Hgiven 52 eq_refl) as (Hcm & _).
    rewrite Hcm; lra.
  - destruct (seat_tube_units (sample_diagram_geometry (Some (52 / 100))))
      as [Hgiven _].
    destruct (Hgiven (52 / 100) eq_refl) as (_ & _ & Hother).
    apply Hother. left. lra.
Defined.

Lemma validated_extent_positive (geometry : Diagram.BikeGeometryData) :
  0 <= Diagram.reachMm geometry ->
  let v := Diagram.validateGeometry geometry in
  0 < Diagram.totalWidth v /\ 0 < Diagram.totalHeight v.
Proof.
  intros Hreach. cbv zeta.
  unfold Diagram.totalWidth, Diagram.totalHeight, Diagram.WHEEL_RADIUS_MM.
  split.
  - destruct (validateGeometry_chainstay geometry) as [Hc _].
    unfold Diagram.validateGeometry in *.
    cbn [Diagram.wheelbase Diagram.chainstay] in *.
    match goal with
    | |- 0 < Diagram.in_range_or ?x 900 1200 ?fb + _ + _ =>
        destruct (in_range_or_cases x 900 1200 fb) as [-> | (w & _ & Hw & ->)]
    end; lra.
  - pose proof (Rmax_r (Diagram.stack (Diagram.validateGeometry geometry) + 200)
                  (340 * 2 + 150)). lra.
Qed.

(** X17: for a frame with non-negative reach the drawing fits its canvas:
    the scaled width and height of the bike take at most 90% of the
    canvas less its 50-unit padding on each side, and on a canvas larger
    than the padding the scale is positive. *)
Theorem drawing_fits_canvas (geometry : Diagram.BikeGeometryData) (width height : R) :
  0 <= Diagram.reachMm geometry ->
  let p := Diagram.bikePoints geometry width height in
  let v := Diagram.validateGeometry geometry in
  Diagram.scale p * Diagram.totalWidth v <= 9 / 10 * (width - 100) /\
  Diagram.scale p * Diagram.totalHeight v <= 9 / 10 * (height - 100) /\
  (100 < width -> 100 < height -> 0 < Diagram.scale p).
Proof.
  intros Hreach.
  destruct (validated_extent_positive geometry Hreach) as [Hw Hh].
  cbv zeta in *. unfold Diagram.bikePoints. cbn [Diagram.scale].
  unfold Diagram.totalWidth, Diagram.totalHeight in *.
  set (tw := Diagram.wheelbase (Diagram.validateGeometry geometry)
             + Diagram.WHEEL_RADIUS_MM * 2 + 100) in *.
  set (th := Rmax (Diagram.stack (Diagram.validateGeometry geometry) + 200)
                  (Diagram.WHEEL_RADIUS_MM * 2 + 150)) in *.
  set (sx := (width - 50 * 2) / tw). set (sy := (height - 50 * 2) / th).
  assert (sx * tw = width - 100) as Ex by (unfold sx; field; lra).
  assert (sy * th = height - 100) as Ey by (unfold sy; field; lra).
  pose proof (Rmin_l sx sy) as Hl. pose proof (Rmin_r sx sy) as Hr.
  split; [nra|]. split; [nra|].
  intros Hwide Hhigh.
  assert (0 < sx) as Hsx by (unfold sx; apply Rdiv_lt_0_compat; lra).
  assert (0 < sy) as Hsy by (unfold sy; apply Rdiv_lt_0_compat; lra).
  assert (0 < Rmin sx sy) by (apply Rmin_glb_lt; assumption).
  lra.
Qed.

Lemma drawing_fits_canvas_witness :
  0 < Diagram.scale (Diagram.bikePoints (sample_diagram_geometry None) 500 300).
Proof.
  apply (drawing_fits_canvas (sample_diagram_geometry None) 500 300); simpl; lra.
Defined.

(** X18: the rear axle is drawn exactly one (scaled) chainstay length from
    the bottom bracket, behind it and one (scaled) BB drop above it, and
    the front axle at the height of the rear one; the guard against a
    negative square root never has to act. *)
Theorem rear_axle_on_chainstay (geometry : Diagram.BikeGeometryData) (width height : R) :
  let p := Diagram.bikePoints geometry width height in
  let v := Diagram.validateGeometry geometry in
  let dx := Diagram.x (Diagram.bb p) - Diagram.x (Diagram.rearWheel p) in
  let dy := Diagram.y (Diagram.bb p) - Diagram.y (Diagram.rearWheel p) in
  dx * dx + dy * dy
  = (Diagram.chainstay v * Diagram.scale p) * (Diagram.chainstay v * Diagram.scale p) /\
  0 <= dx /\
  dy = Diagram.bbDrop v * Diagram.scale p /\
  Diagram.y (Diagram.frontWheel p) = Diagram.y (Diagram.rearWheel p).
Proof.
  cbv zeta.
  destruct (validateGeometry_chainstay geometry) as [Hc Hd].
  unfold Diagram.bikePoints.
  cbn [Diagram.scale Diagram.bb Diagram.rearWheel Diagram.frontWheel
       Diagram.x Diagram.y].
  set (v := Diagram.validateGeometry geometry) in *.
  set (s := Rmin _ _ * (9 / 10)).
  set (c := Diagram.chainstay v) in *. set (d := Diagram.bbDrop v) in *.
  set (D := c * s * (c * s) - d * s * (d * s)).
  assert (0 <= D) as HD.
  { unfold D. replace (c * s * (c * s) - d * s * (d * s))
      with (s * s * ((c - d) * (c + d))) by ring.
    apply Rmult_le_pos; [apply Rle_0_sqr | nra]. }
  rewrite (Rmax_right 0 D HD).
  pose proof (sqrt_sqrt D HD) as Hsq.
  pose proof (sqrt_pos D) as Hpos.
  set (q := sqrt D) in *.
  repeat split; try lra.
  unfold D in Hsq. lra.
Qed.

(** ** The delta notes and the returned deltas *)

Lemma same_sign_same_abs (d d0 : R) :
  Rabs d = Rabs d0 -> gtb d 0 = gtb d0 0 -> d = d0.
Proof.
  intros Habs Hsign. unfold Rabs in Habs.
  destruct (gtb d 0) eqn:Hd; symmetry in Hsign;
    [apply gtb_true in Hd, Hsign | apply gtb_false in Hd, Hsign];
    destruct (Rcase_abs d); destruct (Rcase_abs d0); lra.
Qed.

Lemma note_stack_inj (d d0 : R) : note_stack d = note_stack d0 -> d = d0.
Proof.
  unfold note_stack. intros [= Habs Hword].
  apply same_sign_same_abs; [exact Habs|].
  destruct (gtb d 0); destruct (gtb d0 0); try reflexivity; discriminate.
Qed.

Lemma note_reach_inj (d d0 : R) : note_reach d = note_reach d0 -> d = d0.
Proof.
  unfold note_reach. intros [= Habs Hword].
  apply same_sign_same_abs; [exact Habs|].
  destruct (gtb d 0); destruct (gtb d0 0); try reflexivity; discriminate.
Qed.

Lemma note_stack_not_reach (d d0 : R) : note_stack d <> note_reach d0.
Proof.
  unfold note_stack, note_reach. intros [= _ Hword].
  destruct (gtb d 0); destruct (gtb d0 0); discriminate.
Qed.

(** A delta beyond 5 keeps its side of 5 when rounded, and a rounded delta
    of 6 or more comes from a delta beyond 5. *)
Lemma Math_round_beyond_5 (d : R) :
  Rabs d > 5 ->
  (0 < d -> 5 <= Math_round d) /\ (d <= 0 -> Math_round d <= -5).
Proof.
  intros Hd. unfold Rabs in Hd. destruct (Rcase_abs d); split; intros Hs; try lra.
  - apply (Math_round_le_int d (-5)). lra.
  - apply (Math_round_ge_int d 5). lra.
Qed.

Lemma Math_round_6_beyond_5 (d : R) : 6 <= Rabs (Math_round d) -> Rabs d > 5.
Proof.
  intros H. pose proof (Math_round_bounds d) as Hb.
  unfold Rabs in *. destruct (Rcase_abs (Math_round d)); destruct (Rcase_abs d); lra.
Qed.

(** The notes of a non-fallback result, piece by piece. *)
Lemma best_notes_members fitPosition newFrame (b : Solution) (m : message) :
  In m (notes (best_solution_result fitPosition newFrame b)) <->
  (Rabs (best_stackDelta fitPosition newFrame b) > 5 /\
   m = note_stack (best_stackDelta fitPosition newFrame b)) \/
  (Rabs (best_reachDelta fitPosition newFrame b) > 5 /\
   m = note_reach (best_reachDelta fitPosition newFrame b)) \/
  (nearest_common (sol_stemLength b) <> sol_stemLength b /\
   m = note_nearest (nearest_common (sol_stemLength b))).
Proof.
  unfold best_solution_result. cbn [notes].
  rewrite <- !gtb_true. unfold neqb.
  destruct (gtb (Rabs (best_stackDelta fitPosition newFrame b)) 5);
    destruct (gtb (Rabs (best_reachDelta fitPosition newFrame b)) 5);
    destruct (Req_dec_T (nearest_common (sol_stemLength b)) (sol_stemLength b));
    cbn [app In]; intuition (congruence || discriminate).
Qed.

(** X19: the delta notes agree with the returned deltas.  A note saying
    the handlebar will be higher (lower) comes with a returned
    [stackDelta] of at least 5 (at most -5), one saying further (closer)
    with such a [reachDelta]; and on the non-fallback path a returned
    delta of 6 or more in absolute value always has its note. *)
Theorem delta_notes_agree_with_deltas fitPosition newFrame options :
  let r := calculateStemRequirements fitPosition newFrame options in
  (forall d, In (note_stack d) (notes r) ->
     stackDelta r = Math_round d /\
     (0 < d -> 5 <= stackDelta r) /\ (d <= 0 -> stackDelta r <= -5)) /\
  (forall d, In (note_reach d) (notes r) ->
     reachDelta r = Math_round d /\
     (0 < d -> 5 <= reachDelta r) /\ (d <= 0 -> reachDelta r <= -5)) /\
  (~ no_candidate fitPosition newFrame options ->
   (6 <= Rabs (stackDelta r) -> exists d, In (note_stack d) (notes r)) /\
   (6 <= Rabs (reachDelta r) -> exists d, In (note_reach d) (notes r))).
Proof.
  cbv zeta. unfold calculateStemRequirements, calculateStemRequirements_fuel.
  destruct (find_best _ _ _ _) as [b|] eqn:Hbest.
  - split; [|split].
    + intros d Hin. apply best_notes_members in Hin as [[Hd E] | [[_ E] | [_ E]]].
      * apply note_stack_inj in E as ->.
        cbn [best_solution_result stackDelta].
        split; [reflexivity | now apply Math_round_beyond_5].
      * exfalso. exact (note_stack_not_reach _ _ E).
      * discriminate E.
    + intros d Hin. apply best_notes_members in Hin as [[_ E] | [[Hd E] | [_ E]]].
      * exfalso. symmetry in E. exact (note_stack_not_reach _ _ E).
      * apply note_reach_inj in E as ->.
        cbn [best_solution_result reachDelta].
        split; [reflexivity | now apply Math_round_beyond_5].
      * discriminate E.
    + intros _. cbn [best_solution_result stackDelta reachDelta]. split; intros H6.
      * eexists. apply best_notes_members. left.
        split; [now apply Math_round_6_beyond_5 | reflexivity].
      * eexists. apply best_notes_members. right. left.
        split; [now apply Math_round_6_beyond_5 | reflexivity].
  - split; [|split].
    + intros d [H | []]. discriminate H.
    + intros d [H | []]. discriminate H.
    + intros Hsome. exfalso. apply Hsome. now apply find_best_none_inv.
Qed.

(** The raised pinned input: again only the 17 degree stem fits, and the
    bar ends 20 mm low. *)
Lemma raised_invalid (a : Z) :
  (-17 <= a <= 16)%Z ->
  ~ valid_candidate 73 (241 / 4) (241 / 4) (550 - 530) (1801 / 4 - 390) 0 a.
Proof.
  intros Ha [_ Hrange].
  pose proof (inv_cos_stem_73 a Ha) as Hinv.
  pose proof (stem_sin_73 a ltac:(lia)) as Hsin.
  unfold candidate_length, spacerStackContrib, spacerReachContrib in Hrange.
  set (ic := / cos (effective_angle 73 (IZR a))) in *.
  set (sn := sin (effective_angle 73 (IZR a))) in *.
  destruct (gtb (Rabs sn) (1 / 10)) eqn:Hsteep.
  - apply gtb_true in Hsteep.
    assert (sn < 0) as Hneg.
    { destruct (Rle_lt_or_eq_dec _ _ Hsin) as [Hlt | Heq]; [exact Hlt|].
      rewrite Heq, Rabs_R0 in Hsteep. lra. }
    assert ((550 - 530 - 0 * sin (htaRad 73)) / sn <= 0) as Hstack.
    { unfold Rdiv. assert (/ sn < 0) by now apply Rinv_lt_0_compat. nra. }
    unfold Rdiv in Hrange, Hstack. fold ic in Hrange. nra.
  - unfold Rdiv in Hrange. fold ic in Hrange. nra.
Qed.

Lemma raised_valid :
  valid_candidate 73 (241 / 4) (241 / 4) (550 - 530) (1801 / 4 - 390) 0 17.
Proof.
  split.
  - rewrite effective_angle_73_17, cos_0, Rabs_R1. lra.
  - unfold candidate_length, spacerStackContrib, spacerReachContrib.
    rewrite effective_angle_73_17, cos_0, sin_0, Rabs_R0.
    replace (gtb 0 (1 / 10)) with false by (symmetry; apply gtb_false; lra).
    lra.
Qed.

Lemma raised_best :
  find_best (spacer_fuel (opt_maxSpacers pinned_options))
    raised_position (sample_frame (Some 73)) pinned_options =
  Some (candidate_solution 73 (-6) (550 - 530) (1801 / 4 - 390) 0 17).
Proof.
  unfold find_best, search. rewrite solver_hta_73.
  cbn [opt_maxStemLength opt_minStemLength opt_maxSpacers opt_preferredStemAngle
       pinned_options with_default maxStemLength minStemLength maxSpacers
       preferredStemAngle raised_position sample_position sample_frame
       handlebarStack handlebarReach stackMm reachMm].
  unfold spacer_fuel. rewrite up_0_5.
  change (S (Z.to_nat 1)) with 2%nat.
  rewrite !outer_S.
  replace (leb 0 0) with true by (symmetry; apply leb_true; lra).
  replace (leb (IZR (0 + 5)) 0) with false
    by (symmetry; apply leb_false; simpl; lra).
  rewrite angle_loop_unfold, stem_angles_last, fold_left_app.
  rewrite fold_step_invalid with (l := map _ (seq 0 34)).
  - simpl. apply step_valid_none. exact raised_valid.
  - apply Forall_forall. intros a Ha. apply raised_invalid.
    apply in_map_iff in Ha as (i & <- & Hi). apply in_seq in Hi. lia.
Qed.

Lemma raised_stack_note :
  In (note_stack (-20))
     (notes (calculateStemRequirements raised_position (sample_frame (Some 73))
               pinned_options)).
Proof.
  unfold calculateStemRequirements, calculateStemRequirements_fuel.
  rewrite raised_best. apply best_notes_members. left.
  assert (best_stackDelta raised_position (sample_frame (Some 73))
            (candidate_solution 73 (-6) (550 - 530) (1801 / 4 - 390) 0 17)
          = -20) as ->.
  { unfold best_stackDelta.
    cbn [candidate_solution sol_spacers sol_stemLength sol_stemAngle
         raised_position sample_position sample_frame handlebarStack stackMm].
    rewrite solver_hta_73, effective_angle_73_17, sin_0. lra. }
  split; [|reflexivity].
  unfold Rabs. destruct (Rcase_abs (-20)); lra.
Qed.

Lemma delta_notes_agree_with_deltas_witness :
  stackDelta (calculateStemRequirements raised_position (sample_frame (Some 73))
                pinned_options) <= -5.
Proof.
  destruct (delta_notes_agree_with_deltas raised_position (sample_frame (Some 73))
              pinned_options) as (Hstack & _).
  destruct (Hstack (-20) raised_stack_note) as (_ & _ & Hlow).
  apply Hlow. lra.
Defined.

(** ** The two callbacks of the hook *)

(** X20: the stem inside the setup that [calculateSetup] returns is the
    result [calculateStem] returns for the same frame, and both callbacks
    return null exactly when no fit has been loaded. *)
Theorem hook_callbacks_agree (fitData : option RetulFitData)
    (frameGeometry : FrameGeometry) :
  option_map BikeSetupCalculation.stem (hook_calculateSetup fitData frameGeometry)
  = hook_calculateStem fitData frameGeometry /\
  (hook_calculateSetup fitData frameGeometry = None <-> fitData = None) /\
  (hook_calculateStem fitData frameGeometry = None <-> fitData = None).
Proof.
  unfold hook_calculateSetup, hook_calculateStem.
  destruct fitData as [fd|]; cbn [option_map].
  - destruct (setup_fields fd frameGeometry) as (-> & _).
    repeat split; discriminate.
  - repeat split.
Qed.
